(** * order-service: the RabbitMQ request/response bridge and the order workflow

    A shallow embedding of [src/rabbitmq/rabbitmq.service.ts] (class
    [RabbitMQService]) and of [src/orders/orders.service.ts]
    ([OrderService.createOrder]) together with
    [src/orders/repository/order.repository.ts].

    The service object is a record of its fields; the broker, the timers of
    the event loop and the promises handed to callers are made explicit.
    Every callback the source registers ([setTimeout], [channel.consume],
    [connection.on('close')]) is a function on that record, and the event
    loop is a fold of those functions over a list of events.  Whatever the
    broker answers (a declared queue name, a rejected operation) comes with
    the event, so the model runs on concrete inputs. *)

From stdpp Require Import gmap strings list fin_maps pretty.
From Stdlib Require Import ZArith Lia.

Local Open Scope Z_scope.

(** ** Values shared by both services *)

(** [new Error(message)] *)
Inductive error := Error (message : string).

Global Instance error_eq_dec : EqDecision error.
Proof. solve_decision. Defined.

(** A JavaScript promise: settled at most once. *)
Inductive promise (T : Type) :=
| Pending
| Fulfilled (v : T)
| Rejected (e : error).
Arguments Pending {T}.
Arguments Fulfilled {T} v.
Arguments Rejected {T} e.

(** [resolve(v)] and [reject(e)] of a promise: no effect once settled. *)
Definition promise_resolve {T} (v : T) (p : promise T) : promise T :=
  match p with Pending => Fulfilled v | _ => p end.

Definition promise_reject {T} (e : error) (p : promise T) : promise T :=
  match p with Pending => Rejected e | _ => p end.

(** ** rabbitmq.types.ts *)

Module RabbitMQQueues.
Definition ORDER_STOCK_CHECK : string := "order.stock.check".
Definition ORDER_STOCK_DEDUCT : string := "order.stock.deduct".
Definition INVENTORY_UPDATES : string := "inventory.updates".
End RabbitMQQueues.

Module RabbitMQExchanges.
Definition INVENTORY : string := "inventory.exchange".
Definition ORDER : string := "order.exchange".
End RabbitMQExchanges.

(** ** The broker as the service sees it *)

(** A delivered message: [msg.properties.correlationId], [msg.content] and
    the delivery tag that [ack]/[nack] refer to. *)
Record message := Message {
  correlationId : option string;
  content : string;
  deliveryTag : nat
}.

(** Operations the service issues on its connection and channel, in the
    order in which it issues them. *)
Inductive chan_op :=
| OpConnect (url : string)
| OpCreateChannel
| OpAssertExchange (exchange kind : string) (durable : bool)
| OpAssertDurableQueue (queue : string)
| OpAssertReplyQueue (queue : string) (exclusive autoDelete : bool)
| OpBindQueue (queue exchange pattern : string)
| OpConsume (queue : string) (noAck : bool)
| OpPublish (exchange routingKey body : string) (cid replyTo : option string)
| OpDeleteQueue (queue : string)
| OpAck (tag : nat)
| OpNack (tag : nat) (allUpTo requeue : bool)
| OpCloseChannel
| OpCloseConnection.

Global Instance chan_op_eq_dec : EqDecision chan_op.
Proof. solve_decision. Defined.

(** Lines written through [this.logger]. *)
Inductive log_entry :=
| LogError (text : string) (e : error)
| LogWarn (text : string)
| LogInfo (text : string).

(** What the caller of an [async] method gets back: the method threw, or it
    returned the promise of the call with that correlation id. *)
Inductive call_return :=
| Threw (e : error)
| Returned (cid : string).

(** The entry of [responseEmitter]: the [resolve] and [reject] functions of
    a response promise and the handle of its timer.  Promises and timers are
    named by the correlation id of the call that created them. *)
Record entry := Entry {
  e_resolve : string;
  e_reject : string;
  e_timer : string
}.

(** An armed [setTimeout]: its delay in milliseconds and the queue name its
    callback closes over. *)
Record timer := Timer {
  t_delay : Z;
  t_queue : string
}.

(** An invocation of [resolve] or [reject] on a response promise. *)
Inductive terminal (T : Type) :=
| Resolve (v : T)
| TimeoutReject.
Arguments Resolve {T} v.
Arguments TimeoutReject {T}.

(** ** rabbitmq.service.ts *)

(** What the environment answers during one [publishWithResponse]: the id
    drawn by [uuidv4()], the broker's reply to [assertQueue] (the queue name
    or a rejection), the outcome of the [consume] promise, whether
    [channel.publish] throws, and the outcome of the [deleteQueue] of the
    [catch] block. *)
Record call_env := CallEnv {
  uuidv4 : string;
  assertQueue_reply : error + string;
  consume_reply : option error;
  publish_throws : option error;
  catch_deleteQueue_reply : option error
}.

(** What the environment answers during [cleanup], [connect] and
    [setupSubscriptions]. *)
Record connect_env := ConnectEnv {
  config_RABBITMQ_URI : option string;
  closeChannel_reply : option error;
  closeConnection_reply : option error;
  connect_reply : error + nat;
  createChannel_reply : error + nat;
  topology_refused : option (nat * error);
  subscribe_reply : option error
}.

(** Whether [channel.ack] and [channel.nack] throw when the subscriber
    callback reaches them. *)
Record ack_env := AckEnv {
  ack_throws : option error;
  nack_throws : option error
}.

Module RabbitMQService.
Section Service.

(** [JSON.parse] and [JSON.stringify] over the payload type ([any] in the
    source); [JSON.parse] throws on malformed input. *)
Context {json : Type}.
Variable JSON_parse : string → option json.
Variable JSON_stringify : json → string.

(** The fields of the service ([connection], [channel],
    [responseEmitter]), and around them: the response promises created so
    far, the armed timers, the reply-queue consumers registered through
    [channel.consume], the queues subscribed to, the armed retries of
    [reconnect], and four logs (operations issued to the broker, lines
    logged, invocations of [resolve]/[reject], errors nobody caught). *)
Record State := MkState {
  connection : option nat;
  channel : option nat;
  responseEmitter : gmap string entry;
  promises : gmap string (promise json);
  timers : gmap string timer;
  consumers : gmap string string;
  subscriptions : list string;
  retries : nat;
  ops : list chan_op;
  logs : list log_entry;
  terminals : list (string * terminal json);
  uncaught : list error
}.

Definition initial : State :=
  MkState None None ∅ ∅ ∅ ∅ [] 0%nat [] [] [] [].

Definition set_connection (c : option nat) (s : State) : State :=
  MkState c (channel s) (responseEmitter s) (promises s) (timers s)
    (consumers s) (subscriptions s) (retries s) (ops s) (logs s)
    (terminals s) (uncaught s).
Definition set_channel (c : option nat) (s : State) : State :=
  MkState (connection s) c (responseEmitter s) (promises s) (timers s)
    (consumers s) (subscriptions s) (retries s) (ops s) (logs s)
    (terminals s) (uncaught s).
Definition set_responseEmitter (m : gmap string entry) (s : State) : State :=
  MkState (connection s) (channel s) m (promises s) (timers s)
    (consumers s) (subscriptions s) (retries s) (ops s) (logs s)
    (terminals s) (uncaught s).
Definition set_promises (m : gmap string (promise json)) (s : State) : State :=
  MkState (connection s) (channel s) (responseEmitter s) m (timers s)
    (consumers s) (subscriptions s) (retries s) (ops s) (logs s)
    (terminals s) (uncaught s).
Definition set_timers (m : gmap string timer) (s : State) : State :=
  MkState (connection s) (channel s) (responseEmitter s) (promises s) m
    (consumers s) (subscriptions s) (retries s) (ops s) (logs s)
    (terminals s) (uncaught s).
Definition set_consumers (m : gmap string string) (s : State) : State :=
  MkState (connection s) (channel s) (responseEmitter s) (promises s)
    (timers s) m (subscriptions s) (retries s) (ops s) (logs s)
    (terminals s) (uncaught s).
Definition set_subscriptions (l : list string) (s : State) : State :=
  MkState (connection s) (channel s) (responseEmitter s) (promises s)
    (timers s) (consumers s) l (retries s) (ops s) (logs s)
    (terminals s) (uncaught s).
Definition set_retries (n : nat) (s : State) : State :=
  MkState (connection s) (channel s) (responseEmitter s) (promises s)
    (timers s) (consumers s) (subscriptions s) n (ops s) (logs s)
    (terminals s) (uncaught s).
Definition set_ops (l : list chan_op) (s : State) : State :=
  MkState (connection s) (channel s) (responseEmitter s) (promises s)
    (timers s) (consumers s) (subscriptions s) (retries s) l (logs s)
    (terminals s) (uncaught s).
Definition set_logs (l : list log_entry) (s : State) : State :=
  MkState (connection s) (channel s) (responseEmitter s) (promises s)
    (timers s) (consumers s) (subscriptions s) (retries s) (ops s) l
    (terminals s) (uncaught s).
Definition set_terminals (l : list (string * terminal json)) (s : State)
    : State :=
  MkState (connection s) (channel s) (responseEmitter s) (promises s)
    (timers s) (consumers s) (subscriptions s) (retries s) (ops s) (logs s)
    l (uncaught s).
Definition set_uncaught (l : list error) (s : State) : State :=
  MkState (connection s) (channel s) (responseEmitter s) (promises s)
    (timers s) (consumers s) (subscriptions s) (retries s) (ops s) (logs s)
    (terminals s) l.

(** *** Primitives of the runtime and of the channel *)

(** An operation goes out on the channel. *)
Definition issue (o : chan_op) (s : State) : State :=
  set_ops (ops s ++ [o]) s.

Definition issue_all (l : list chan_op) (s : State) : State :=
  set_ops (ops s ++ l) s.

Definition logger_error (text : string) (e : error) (s : State) : State :=
  set_logs (logs s ++ [LogError text e]) s.

Definition logger_warn (text : string) (s : State) : State :=
  set_logs (logs s ++ [LogWarn text]) s.

(** [this.channel.deleteQueue(queue).catch((err) =>
    this.logger.error('Error deleting queue', err))]:
    the request goes out; a rejection is logged and goes no further. *)
Definition deleteQueue_logged (queue : string) (reply : option error)
    (s : State) : State :=
  let s := issue (OpDeleteQueue queue) s in
  match reply with
  | Some err => logger_error "Error deleting queue" err s
  | None => s
  end.

(** [resolve(response)] of the promise of call [cid]. *)
Definition resolve (cid : string) (response : json) (s : State) : State :=
  set_terminals (terminals s ++ [(cid, Resolve response)])
    (set_promises (alter (promise_resolve response) cid (promises s)) s).

(** [reject(new Error('Request timeout'))] of the promise of call [cid]. *)
Definition reject (cid : string) (s : State) : State :=
  set_terminals (terminals s ++ [(cid, TimeoutReject)])
    (set_promises
       (alter (promise_reject (Error "Request timeout")) cid (promises s)) s).

Definition clearTimeout (handle : string) (s : State) : State :=
  set_timers (delete handle (timers s)) s.

(** *** The timer callback of [publishWithResponse] *)

(** The function handed to [setTimeout] by the call [cid]; [queue] is the
    name it closes over.  With no channel the property access throws
    before [reject] is reached. *)
Definition onTimeout (cid queue : string) (reply : option error)
    (s : State) : State :=
  let s := set_responseEmitter (delete cid (responseEmitter s)) s in
  match channel s with
  | None => set_uncaught (uncaught s ++ [Error "TypeError"]) s
  | Some _ =>
      let s := deleteQueue_logged queue reply s in
      reject cid s
  end.

(** *** The consumer callback of [publishWithResponse] *)

(** The function handed to [channel.consume] by the call [cid]. *)
Definition onReply (cid queue : string) (msg : option message)
    (reply : option error) (s : State) : State :=
  match msg with
  | None => s
  | Some msg =>
      if decide (correlationId msg = Some cid) then
        match JSON_parse (content msg) with
        | None => set_uncaught (uncaught s ++ [Error "SyntaxError"]) s
        | Some response =>
            let s :=
              match responseEmitter s !! cid with
              | Some emitterData =>
                  let s := clearTimeout (e_timer emitterData) s in
                  let s :=
                    set_responseEmitter (delete cid (responseEmitter s)) s in
                  resolve cid response s
              | None => s
              end in
            match channel s with
            | None => set_uncaught (uncaught s ++ [Error "TypeError"]) s
            | Some _ => deleteQueue_logged queue reply s
            end
        end
      else s
  end.

(** *** publishWithResponse *)

(** [await this.channel.deleteQueue(replyTo).catch(() => {})]: the request
    goes out; a rejection is dropped without a trace. *)
Definition deleteQueue_swallowed (queue : string) (reply : option error)
    (s : State) : State :=
  issue (OpDeleteQueue queue) s.

(** The [catch] block: the entry is dropped, the queue deletion is
    awaited, and the error is thrown again. *)
Definition publishWithResponse_catch (cid replyTo : string) (err : error)
    (reply : option error) (s : State) : State * call_return :=
  let s := set_responseEmitter (delete cid (responseEmitter s)) s in
  let s := deleteQueue_swallowed replyTo reply s in
  (s, Threw err).

Definition publishWithResponse (exchange routingKey : string)
    (message : json) (timeout : option Z) (env : call_env) (s : State)
    : State * call_return :=
  let timeout := default 30000 timeout in
  match channel s with
  | None => (s, Threw (Error "Channel not initialized"))
  | Some _ =>
      let cid := uuidv4 env in
      let replyTo := "response." +:+ cid in
      let s := issue (OpAssertReplyQueue replyTo true true) s in
      match assertQueue_reply env with
      | inl err =>
          publishWithResponse_catch cid replyTo err
            (catch_deleteQueue_reply env) s
      | inr queue =>
          (* new Promise((resolve, reject) => { ... }) *)
          let s := set_promises (<[cid := Pending]> (promises s)) s in
          let s := set_timers (<[cid := Timer timeout queue]> (timers s)) s in
          let s :=
            set_responseEmitter
              (<[cid := Entry cid cid cid]> (responseEmitter s)) s in
          let s := issue (OpConsume queue true) s in
          let s :=
            match consume_reply env with
            | None => set_consumers (<[cid := queue]> (consumers s)) s
            | Some err => set_uncaught (uncaught s ++ [err]) s
            end in
          (* await this.channel.publish(...) *)
          let s :=
            issue (OpPublish exchange routingKey (JSON_stringify message)
                     (Some cid) (Some replyTo)) s in
          match publish_throws env with
          | Some err =>
              publishWithResponse_catch cid replyTo err
                (catch_deleteQueue_reply env) s
          | None => (s, Returned cid)
          end
      end
  end.

(** *** connect, cleanup, reconnect, subscribe *)

(** The declarations of [connect], in source order. *)
Definition topology : list chan_op :=
  [ OpAssertExchange RabbitMQExchanges.INVENTORY "topic" true;
    OpAssertExchange RabbitMQExchanges.ORDER "topic" true;
    OpAssertDurableQueue RabbitMQQueues.ORDER_STOCK_CHECK;
    OpAssertDurableQueue RabbitMQQueues.ORDER_STOCK_DEDUCT;
    OpAssertDurableQueue RabbitMQQueues.INVENTORY_UPDATES;
    OpBindQueue RabbitMQQueues.INVENTORY_UPDATES
      RabbitMQExchanges.INVENTORY "inventory.stock.*" ].

(** [configService.get('RABBITMQ_URI') || 'amqp://rabbitmq:5672'] *)
Definition broker_url (env : connect_env) : string :=
  match config_RABBITMQ_URI env with
  | Some u => if decide (u = "") then "amqp://rabbitmq:5672" else u
  | None => "amqp://rabbitmq:5672"
  end.

(** [connect]: [Some err] when it throws.  The fields are assigned as soon
    as the connection and the channel exist, before the declarations. *)
Definition connect (env : connect_env) (s : State) : State * option error :=
  let failed err s :=
    (logger_error "Failed to connect to RabbitMQ" err s, Some err) in
  let s := issue (OpConnect (broker_url env)) s in
  match connect_reply env with
  | inl err => failed err s
  | inr c =>
      let s := set_connection (Some c) s in
      let s := issue OpCreateChannel s in
      match createChannel_reply env with
      | inl err => failed err s
      | inr ch =>
          let s := set_channel (Some ch) s in
          match topology_refused env with
          | Some (k, err) =>
              if decide (k < length topology)%nat
              then failed err (issue_all (take (S k) topology) s)
              else (issue_all topology s, None)
          | None => (issue_all topology s, None)
          end
      end
  end.

(** [cleanup]: closes what exists; an error is logged and ends the
    method. *)
Definition cleanup (env : connect_env) (s : State) : State :=
  let '(s, thrown) :=
    match channel s with
    | Some _ => (issue OpCloseChannel s, closeChannel_reply env)
    | None => (s, None)
    end in
  match thrown with
  | Some err => logger_error "Error during cleanup" err s
  | None =>
      match connection s with
      | Some _ =>
          let s := issue OpCloseConnection s in
          match closeConnection_reply env with
          | Some err => logger_error "Error during cleanup" err s
          | None => s
          end
      | None => s
      end
  end.

(** [subscribe]: registers the consumer; [Some err] when it throws.  The
    per-message callback is [onMessage] below. *)
Definition subscribe (queue : string) (reply : option error) (s : State)
    : State * option error :=
  let failed err s :=
    (logger_error ("Failed to subscribe to queue " +:+ queue) err s,
     Some err) in
  match channel s with
  | None => failed (Error "TypeError") s
  | Some _ =>
      let s := issue (OpConsume queue false) s in
      match reply with
      | Some err => failed err s
      | None => (set_subscriptions (subscriptions s ++ [queue]) s, None)
      end
  end.

(** The [async (msg) => { try ... catch ... }] handed to [channel.consume]
    by [subscribe].  [callback] answers [None] when the handler completes
    and [Some err] when it raises.  [channel.ack] sits inside the [try]: if
    it throws, the [catch] block logs and rejects the message; what
    [channel.nack] throws escapes the callback.  On [null] the [catch] block
    itself throws at [nack]. *)
Definition onMessage (queue : string)
    (callback : json → message → option error) (msg : option message)
    (env : ack_env) (s : State) : State :=
  let text := "Error processing message from queue " +:+ queue in
  match msg with
  | None =>
      set_uncaught (uncaught s ++ [Error "TypeError"])
        (logger_error text (Error "TypeError") s)
  | Some msg =>
      let failed err s :=
        let s := logger_error text err s in
        match channel s with
        | None => set_uncaught (uncaught s ++ [Error "TypeError"]) s
        | Some _ =>
            let s := issue (OpNack (deliveryTag msg) false false) s in
            match nack_throws env with
            | Some err => set_uncaught (uncaught s ++ [err]) s
            | None => s
            end
        end in
      match JSON_parse (content msg) with
      | None => failed (Error "SyntaxError") s
      | Some content =>
          match callback content msg with
          | Some err => failed err s
          | None =>
              match channel s with
              | None => failed (Error "TypeError") s
              | Some _ =>
                  let s := issue (OpAck (deliveryTag msg)) s in
                  match ack_throws env with
                  | Some err => failed err s
                  | None => s
                  end
              end
          end
      end
  end.

(** One subscription at work.  The callbacks are asynchronous and nothing
    is awaited between deliveries, so they need not complete in the order of
    delivery: the list gives the messages in the order in which their
    callbacks complete, each with what [ack] and [nack] do at that moment. *)
Definition consumeLoop (queue : string)
    (callback : json → message → option error)
    (completions : list (message * ack_env)) (s : State) : State :=
  foldl (λ s c, onMessage queue callback (Some c.1) c.2 s) s completions.

Definition setupSubscriptions (env : connect_env) (s : State)
    : State * option error :=
  subscribe RabbitMQQueues.INVENTORY_UPDATES (subscribe_reply env) s.

(** [onModuleInit]: [Some err] when start-up fails. *)
Definition onModuleInit (env : connect_env) (s : State)
    : State * option error :=
  match connect env s with
  | (s, Some err) => (s, Some err)
  | (s, None) => setupSubscriptions env s
  end.

(** [reconnect]: a failure is logged and arms another attempt five
    seconds later.  The method reads and writes [connection] and [channel]
    only. *)
Definition reconnect (env : connect_env) (s : State) : State :=
  let failed err s :=
    set_retries (S (retries s))
      (logger_error "Failed to reconnect to RabbitMQ" err s) in
  let s := cleanup env s in
  match connect env s with
  | (s, Some err) => failed err s
  | (s, None) =>
      match setupSubscriptions env s with
      | (s, Some err) => failed err s
      | (s, None) => s
      end
  end.

(** The ['close'] handler installed by [setupErrorHandlers]. *)
Definition onConnectionClose (env : connect_env) (s : State) : State :=
  reconnect env
    (logger_warn "RabbitMQ Connection Closed. Attempting to reconnect..." s).

(** *** publish *)

(** [publish]: [Some err] when it throws.  The method has no guard: without
    a channel the property access throws inside the [try], and that error is
    logged and thrown like any other. *)
Definition publish (exchange routingKey : string) (message : json)
    (throws : option error) (s : State) : State * option error :=
  let failed err s :=
    (logger_error ("Failed to publish message to " +:+ exchange) err s,
     Some err) in
  match channel s with
  | None => failed (Error "TypeError") s
  | Some _ =>
      let s :=
        issue (OpPublish exchange routingKey (JSON_stringify message)
                 None None) s in
      match throws with
      | Some err => failed err s
      | None => (s, None)
      end
  end.

(** *** The event loop *)

(** What can happen to the service: a caller invokes
    [publishWithResponse] or [publish]; the timer of a call expires; the broker hands a
    message (or [null], on cancellation) to the consumer callback of a
    call; the connection reports an error; the connection closes; a retry of
    [reconnect] is due; the module starts; the module is destroyed.  Each
    event carries the broker's answers to the operations the callback
    issues. *)
Inductive event :=
| EvCall (exchange routingKey : string) (message : json)
    (timeout : option Z) (env : call_env)
| EvTimer (cid : string) (deleteQueue_reply : option error)
| EvDeliver (cid : string) (msg : option message)
    (deleteQueue_reply : option error)
| EvError (err : error)
| EvClose (env : connect_env)
| EvRetry (env : connect_env)
| EvInit (env : connect_env)
| EvDestroy (env : connect_env)
| EvPublish (exchange routingKey : string) (message : json)
    (throws : option error).

(** The ['error'] handler installed by [setupErrorHandlers]. *)
Definition onConnectionError (err : error) (s : State) : State :=
  logger_error "RabbitMQ Connection Error" err s.

Definition onModuleDestroy (env : connect_env) (s : State) : State :=
  cleanup env s.

(** One turn of the event loop.  A timer fires only while armed, and the
    runtime drops it as it fires; a consumer callback runs only if [consume]
    registered it. *)
Definition step (s : State) (ev : event) : State :=
  match ev with
  | EvCall exchange routingKey message timeout env =>
      (publishWithResponse exchange routingKey message timeout env s).1
  | EvTimer cid reply =>
      match timers s !! cid with
      | Some t => onTimeout cid (t_queue t) reply (clearTimeout cid s)
      | None => s
      end
  | EvDeliver cid msg reply =>
      match consumers s !! cid with
      | Some queue => onReply cid queue msg reply s
      | None => s
      end
  | EvError err => onConnectionError err s
  | EvClose env => onConnectionClose env s
  | EvRetry env =>
      match retries s with
      | S n => reconnect env (set_retries n s)
      | O => s
      end
  | EvInit env => (onModuleInit env s).1
  | EvDestroy env => onModuleDestroy env s
  | EvPublish exchange routingKey message throws =>
      (publish exchange routingKey message throws s).1
  end.

Definition run (s : State) (evs : list event) : State :=
  foldl step s evs.

(** What the caller of [publishWithResponse] observes: the error thrown,
    or the state of the promise that was returned. *)
Definition outcome (r : call_return) (s : State) : promise json :=
  match r with
  | Threw err => Rejected err
  | Returned cid => default Pending (promises s !! cid)
  end.

(** [uuidv4()] never repeats: a trace is well-formed when every call draws
    an id that no earlier call of the trace drew.  (A call stopped by the
    channel guard draws none; the id its event carries is then unused.) *)
Definition call_ids (evs : list event) : list string :=
  omap (λ ev, match ev with
              | EvCall _ _ _ _ env => Some (uuidv4 env)
              | _ => None
              end) evs.

Definition well_formed (evs : list event) : Prop := NoDup (call_ids evs).

(** *** Vocabulary of the properties *)

(** The promise a terminal event leaves behind. *)
Definition settle (t : terminal json) : promise json :=
  match t with
  | Resolve v => Fulfilled v
  | TimeoutReject => Rejected (Error "Request timeout")
  end.

(** The terminal events applied so far to the call [cid], oldest first. *)
Definition events_of (cid : string) (l : list (string * terminal json))
    : list (terminal json) :=
  (filter (λ p, p.1 = cid) l).*2.

Definition terminal_events (cid : string) (s : State) : list (terminal json) :=
  events_of cid (terminals s).

(** The queues whose deletion was requested, in order. *)
Definition deletions (l : list chan_op) : list string :=
  omap (λ o, match o with OpDeleteQueue q => Some q | _ => None end) l.


(** Two states that agree on everything a pending call depends on; a set
    channel stays set. *)
Definition same_calls (s s' : State) : Prop :=
  responseEmitter s' = responseEmitter s ∧ promises s' = promises s ∧
  timers s' = timers s ∧ terminals s' = terminals s ∧
  consumers s' = consumers s ∧ (is_Some (channel s) → is_Some (channel s')).

(** What holds of the service after any well-formed trace [evs]. *)
Record invariant (evs : list event) (s : State) : Prop := {
  inv_entry : ∀ cid e, responseEmitter s !! cid = Some e →
    e = Entry cid cid cid ∧ is_Some (timers s !! cid);
  inv_timer : ∀ cid, is_Some (timers s !! cid) →
    cid ∈ call_ids evs ∧ promises s !! cid = Some Pending ∧
    terminal_events cid s = [];
  inv_terminal : ∀ cid t, (cid, t) ∈ terminals s →
    cid ∈ call_ids evs ∧ terminal_events cid s = [t] ∧
    responseEmitter s !! cid = None ∧ timers s !! cid = None ∧
    promises s !! cid = Some (settle t);
  inv_resolved : ∀ cid v, (cid, Resolve v) ∈ terminals s →
    ∃ msg reply, EvDeliver cid (Some msg) reply ∈ evs ∧
      correlationId msg = Some cid ∧ JSON_parse (content msg) = Some v;
  inv_promise : ∀ cid p, promises s !! cid = Some p →
    p = Pending ∨ ∃ t, (cid, t) ∈ terminals s ∧ p = settle t;
  inv_channel : ∀ cid, is_Some (timers s !! cid) → is_Some (channel s)
}.

(** The answers under which [connect] and [setupSubscriptions] both
    complete: the connection and the channel are granted, no declaration of
    [topology] is refused, and the subscription is accepted. *)
Definition comes_up (env : connect_env) : bool :=
  match connect_reply env, createChannel_reply env with
  | inr _, inr _ =>
      match topology_refused env with
      | Some (k, _) => bool_decide (length topology ≤ k)%nat
      | None => true
      end
      && bool_decide (subscribe_reply env = None)
  | _, _ => false
  end.

(** Why the subscriber callback ends in its [catch] block, if it does: the
    body does not decode, the handler raises, or [channel.ack] throws. *)
Definition failure (callback : json → message → option error)
    (c : message * ack_env) : option error :=
  match JSON_parse (content c.1) with
  | Some body =>
      match callback body c.1 with
      | Some err => Some err
      | None => ack_throws c.2
      end
  | None => Some (Error "SyntaxError")
  end.

(** The correlation id and reply queue of every published message that
    carries a correlation id, in order. *)
Definition published (l : list chan_op)
    : list (option string * option string) :=
  omap (λ o, match o with
             | OpPublish _ _ _ (Some cid) replyTo => Some (Some cid, replyTo)
             | _ => None
             end) l.

(** The events of the call [cid]: its invocation, the expiry of its timer,
    a delivery to its consumer. *)
Definition concerns (cid : string) (ev : event) : bool :=
  match ev with
  | EvCall _ _ _ _ env => bool_decide (uuidv4 env = cid)
  | EvTimer c _ | EvDeliver c _ _ => bool_decide (c = cid)
  | _ => false
  end.

(** The request a call with id [cid] puts on the wire. *)
Definition request_of (cid : string) : option string * option string :=
  (Some cid, Some ("response." +:+ cid)).

End Service.
End RabbitMQService.

(** ** orders.service.ts and order.repository.ts *)

Module HttpStatus.
Definition BAD_REQUEST : nat := 400.
Definition NOT_FOUND : nat := 404.
Definition INTERNAL_SERVER_ERROR : nat := 500.
End HttpStatus.

(** Modelled from the spec: the enum [OrderStatus] of [order.enums.ts] is not
    among the sources; its members are the three that the service, the schema
    and the service's test name. *)
Inductive OrderStatus := PENDING | CONFIRMED | FAILED.

Global Instance OrderStatus_eq_dec : EqDecision OrderStatus.
Proof. solve_decision. Defined.

(** What [createOrder] and [getOrder] can throw. *)
Inductive exception :=
| HttpException (response : string) (status : nat)
| PlainError (e : error)
| TypeError.

(** [a || b] on an optional string: the empty string is falsy too. *)
Definition or_else (a : option string) (b : string) : string :=
  match a with
  | Some x => if decide (x = "") then b else x
  | None => b
  end.

(** What the service hands to the logger as [data]: a text, [undefined], or
    the [stack] of an error, a text the runtime builds from the error. *)
Inductive log_data :=
| Text (text : string)
| Undefined
| StackOf (e : exception).

(** The records are over the type of JavaScript numbers, which the services
    below take with the operations they use. *)
Record CreateOrderDto {number : Type} := MkCreateOrderDto {
  dto_productCode : string;
  dto_quantity : number
}.
Arguments CreateOrderDto : clear implicits.
Arguments MkCreateOrderDto {number} _ _.

Record Order {number : Type} := MkOrder {
  productCode : string;
  quantity : number;
  totalPrice : number;
  status : OrderStatus
}.
Arguments Order : clear implicits.
Arguments MkOrder {number} _ _ _ _.

(** [StockCheckResponse] of [rabbitmq.types.ts]; an absent field is
    [undefined], and an absent [success] is falsy. *)
Module StockCheckResponse.
Record t {number : Type} := Make {
  success : bool;
  message : option string;
  availableStock : option (gmap string number)
}.
Arguments t : clear implicits.
Arguments Make {number} _ _ _.
End StockCheckResponse.

(** Calls made on the repository, in order. *)
Inductive repo_call :=
| RepoCreate (id : string) (st : OrderStatus)
| RepoUpdate (id : string) (st : OrderStatus).

(** The collaborators of [OrderService]: the order collection, the calls
    the repository received, the documents handed to the Elasticsearch
    logger, and the routing keys of the requests sent through the bridge. *)
Record World {number : Type} := MkWorld {
  orders : gmap string (Order number);
  repo_calls : list repo_call;
  order_logs : list (string * log_data);
  requests : list string
}.
Arguments World : clear implicits.
Arguments MkWorld {number} _ _ _ _.

(** What the environment answers during one [createOrder]: the outcome of
    the two [publishWithResponse] calls, the id given to the new document,
    and whether the database rejects the save, the update to CONFIRMED and
    the update to FAILED. *)
Record order_env {number : Type} := OrderEnv {
  stockCheck_reply : error + StockCheckResponse.t number;
  new_id : string;
  save_reply : option error;
  deduct_reply : error + StockCheckResponse.t number;
  confirm_reply : option error;
  fail_reply : option error
}.
Arguments order_env : clear implicits.
Arguments OrderEnv {number} _ _ _ _ _ _.

Inductive result {number : Type} :=
| Throws (e : exception)
| Returns (order : option (Order number)).
Arguments result : clear implicits.
Arguments Throws {number} _.
Arguments Returns {number} _.

Module OrderRepository.
Section Repository.

Context {number : Type}.

(** [Number.isNaN]: the cast of the schema's [Number] fields refuses it. *)
Variable isNaN : number → bool.

(** [new this.orderModel({...createOrderDto, status}).save()]: validation
    against the schema refuses the document ([productCode] is a required
    string, which the empty one does not satisfy; [quantity] and
    [totalPrice] are required numbers), or the database stores it or
    rejects. *)
Definition createOrder (dto : CreateOrderDto number) (price : number)
    (st : OrderStatus) (id : string) (reply : option error)
    (w : World number) : World number * (error + Order number) :=
  let order := MkOrder (dto_productCode dto) (dto_quantity dto) price st in
  let calls := repo_calls w ++ [RepoCreate id st] in
  let same := MkWorld (orders w) calls (order_logs w) (requests w) in
  if bool_decide (dto_productCode dto = "") || isNaN price
     || isNaN (dto_quantity dto)
  then (same, inl (Error "ValidationError"))
  else
    match reply with
    | Some err => (same, inl err)
    | None =>
        (MkWorld (<[id := order]> (orders w)) calls (order_logs w)
           (requests w), inr order)
    end.

(** [findByIdAndUpdate(orderId, { $set: { status } }, { new: true })]:
    the database rejects, or answers the updated document, or [null] when
    there is none with that id. *)
Definition updateOrderStatus (id : string) (st : OrderStatus)
    (reply : option error) (w : World number)
    : World number * (error + option (Order number)) :=
  let calls := repo_calls w ++ [RepoUpdate id st] in
  let same := MkWorld (orders w) calls (order_logs w) (requests w) in
  match reply with
  | Some err => (same, inl err)
  | None =>
      match orders w !! id with
      | Some o =>
          let o := MkOrder (productCode o) (quantity o) (totalPrice o) st in
          (MkWorld (<[id := o]> (orders w)) calls (order_logs w)
             (requests w), inr (Some o))
      | None => (same, inr None)
      end
  end.

(** [findById(orderId)] *)
Definition findOrderById (id : string) (reply : option error)
    (w : World number) : error + option (Order number) :=
  match reply with
  | Some err => inl err
  | None => inr (orders w !! id)
  end.

End Repository.
End OrderRepository.

Module OrderService.
Section Service.

Context {number : Type}.

(** JavaScript numbers as far as the service uses them: the product of two
    doubles, [NaN] (what a product with [undefined] gives), [Number.isNaN],
    and the text a template literal prints for a number. *)
Variable times : number → number → number.
Variable NaN : number.
Variable isNaN : number → bool.
Variable show : number → string.

(** [elasticLogger.logOrderEvent]: hands a document to the logger, whose
    own failures are caught inside it. *)
Definition logOrderEvent (eventType : string) (data : log_data)
    (w : World number) : World number :=
  MkWorld (orders w) (repo_calls w) (order_logs w ++ [(eventType, data)])
    (requests w).

(** The request leaves through [rabbitMQService.publishWithResponse]. *)
Definition request (routingKey : string) (w : World number) : World number :=
  MkWorld (orders w) (repo_calls w) (order_logs w)
    (requests w ++ [routingKey]).

(** [stockCheckResponse.message], as handed to the logger. *)
Definition message_data (m : option string) : log_data :=
  match m with Some text => Text text | None => Undefined end.

Definition createOrder (dto : CreateOrderDto number)
    (env : order_env number) (w : World number)
    : World number * result number :=
  let outer_catch err w :=
    (logOrderEvent "Order creation failed" (StackOf err) w, Throws err) in
  let w := request "inventory.stock.check" w in
  match stockCheck_reply env with
  | inl err => outer_catch (PlainError err) w
  | inr stockCheckResponse =>
      if negb (StockCheckResponse.success stockCheckResponse) then
        let w :=
          logOrderEvent "Stock check failed"
            (message_data (StockCheckResponse.message stockCheckResponse))
            w in
        outer_catch
          (HttpException
             (or_else (StockCheckResponse.message stockCheckResponse)
                "Insufficient stock available")
             HttpStatus.BAD_REQUEST) w
      else
        match StockCheckResponse.availableStock stockCheckResponse with
        | None => outer_catch TypeError w
        | Some stock =>
            let totalPrice :=
              match stock !! dto_productCode dto with
              | Some price => times (dto_quantity dto) price
              | None => NaN
              end in
            let id := new_id env in
            match
              OrderRepository.createOrder isNaN dto totalPrice PENDING id
                (save_reply env) w
            with
            | (w, inl err) => outer_catch (PlainError err) w
            | (w, inr order) =>
                let inner_catch err w :=
                  match
                    OrderRepository.updateOrderStatus id FAILED
                      (fail_reply env) w
                  with
                  | (w, inl rejected) => outer_catch (PlainError rejected) w
                  | (w, inr _) =>
                      let w :=
                        logOrderEvent "Stock deduction failed"
                          (StackOf err) w in
                      outer_catch
                        (HttpException "Failed to process order"
                           HttpStatus.INTERNAL_SERVER_ERROR) w
                  end in
                let w := request "inventory.stock.deduct" w in
                match deduct_reply env with
                | inl err => inner_catch (PlainError err) w
                | inr deductionResponse =>
                    if negb (StockCheckResponse.success deductionResponse)
                    then
                      inner_catch
                        (PlainError
                           (Error
                              (or_else
                                 (StockCheckResponse.message
                                    deductionResponse)
                                 "Stock deduction failed"))) w
                    else
                      match
                        OrderRepository.updateOrderStatus id CONFIRMED
                          (confirm_reply env) w
                      with
                      | (w, inl rejected) =>
                          inner_catch (PlainError rejected) w
                      | (w, inr confirmedOrder) =>
                          let w :=
                            logOrderEvent "Order confirmed"
                              (Text
                                 ("Order " +:+ id +:+
                                  " confirmed successfully with total price "
                                  +:+ show totalPrice)) w in
                          (w, Returns confirmedOrder)
                      end
                end
            end
        end
  end.

(** [getOrder]: whatever is thrown inside the [try], the rejection of the
    lookup included, is logged and thrown again. *)
Definition getOrder (id : string) (reply : option error) (w : World number)
    : World number * result number :=
  let catch err w :=
    (logOrderEvent "Failed to fetch order" (StackOf err) w, Throws err) in
  match OrderRepository.findOrderById id reply w with
  | inl err => catch (PlainError err) w
  | inr (Some order) => (w, Returns (Some order))
  | inr None =>
      catch (HttpException "Order not found" HttpStatus.NOT_FOUND) w
  end.

End Service.
End OrderService.

(** ** A concrete deployment

    Payloads are kept as their JSON text; the empty text does not parse.
    The broker is reachable and answers every declaration; the stock check
    of the specification's scenario is issued with the id ["c-1"]. *)

Module Scenario.

Definition parse (text : string) : option string :=
  if decide (text = "") then None else Some text.

Definition stringify (value : string) : string := value.

Definition broker_up : connect_env :=
  ConnectEnv None None None (inr 1%nat) (inr 1%nat) None None.

Definition broker_answers (cid : string) : call_env :=
  CallEnv cid (inr ("response." +:+ cid)) None None None.

(** The broker refuses the [consume] on the reply queue. *)
Definition consume_refused (cid : string) : call_env :=
  CallEnv cid (inr ("response." +:+ cid))
    (Some (Error "ACCESS_REFUSED")) None None.

Definition stock_check (timeout : option Z) (env : call_env)
    : RabbitMQService.event :=
  RabbitMQService.EvCall RabbitMQExchanges.INVENTORY "inventory.stock.check"
    "{productCode:PROD-1,quantity:2}" timeout env.

Definition reply (cid : string) : message :=
  Message (Some cid) "{success:true,availableStock:{PROD-1:100}}" 1.

Abbreviation run :=
  (RabbitMQService.run parse stringify RabbitMQService.initial).

Abbreviation step := (RabbitMQService.step parse stringify).

(** The module started and one stock check is outstanding. *)
Definition outstanding : list RabbitMQService.event :=
  [RabbitMQService.EvInit broker_up;
   stock_check (Some 1000) (broker_answers "c-1")].

(** Numbers for the scenarios: integers small enough to be exact as
    doubles, and [None] for [NaN]. *)
Definition times (a b : option Z) : option Z :=
  match a, b with
  | Some x, Some y => Some (x * y)
  | _, _ => None
  end.

Definition isNaN (a : option Z) : bool := bool_decide (a = None).

Definition show (a : option Z) : string :=
  match a with Some z => pretty z | None => "NaN" end.

Abbreviation createOrder := (OrderService.createOrder times None isNaN show).

(** The order of the service's test: two units of PROD-1 at 100. *)
Definition dto : CreateOrderDto (option Z) :=
  MkCreateOrderDto "PROD-1" (Some 2).

Definition in_stock : StockCheckResponse.t (option Z) :=
  StockCheckResponse.Make true None (Some {[ "PROD-1" := Some 100 ]}).

Definition deduction_failed : StockCheckResponse.t (option Z) :=
  StockCheckResponse.Make false (Some "Deduction failed") None.

Definition deduction_fails : order_env (option Z) :=
  OrderEnv (inr in_stock) "ORDER-123" None (inr deduction_failed) None None.

(** The deduction fails and the database then rejects the update to
    FAILED. *)
Definition update_rejected : order_env (option Z) :=
  OrderEnv (inr in_stock) "ORDER-123" None (inr deduction_failed) None
    (Some (Error "MongoNetworkError")).

Definition empty_world : World (option Z) := MkWorld ∅ [] [] [].

(** A reply to the call [cid] whose body is not JSON. *)
Definition garbled (cid : string) : message := Message (Some cid) "" 2.

(** [channel.publish] throws. *)
Definition publish_fails (cid : string) : call_env :=
  CallEnv cid (inr ("response." +:+ cid)) None
    (Some (Error "Channel closed")) None.

(** The broker refuses the binding, the last declaration of [connect]. *)
Definition binding_refused : connect_env :=
  ConnectEnv None None None (inr 1%nat) (inr 1%nat)
    (Some (5%nat, Error "NOT_FOUND")) None.

Definition out_of_stock : StockCheckResponse.t (option Z) :=
  StockCheckResponse.Make false (Some "Insufficient stock") None.

Definition stock_refused : order_env (option Z) :=
  OrderEnv (inr out_of_stock) "ORDER-123" None (inr deduction_failed)
    None None.

Definition deducted : StockCheckResponse.t (option Z) :=
  StockCheckResponse.Make true None None.

Definition deduction_succeeds : order_env (option Z) :=
  OrderEnv (inr in_stock) "ORDER-123" None (inr deducted) None None.

(** The stock check gets no answer before its deadline. *)
Definition bridge_times_out : order_env (option Z) :=
  OrderEnv (inl (Error "Request timeout")) "ORDER-123" None (inr deducted)
    None None.

(** Two stock checks outstanding at once, and their replies. *)
Definition answer (cid body : string) : message := Message (Some cid) body 1.

Definition concurrent : list RabbitMQService.event :=
  [RabbitMQService.EvInit broker_up;
   stock_check (Some 1000) (broker_answers "c-1");
   stock_check (Some 1000) (broker_answers "c-2");
   RabbitMQService.EvDeliver "c-2" (Some (answer "c-2" "{stock:2}")) None].

(** A handler that completes on every message; [ack] and [nack] both find
    the channel closed. *)
Definition handler (body : string) (msg : message) : option error := None.

Definition channel_closed : ack_env :=
  AckEnv (Some (Error "Channel closed")) (Some (Error "Channel closed")).

Definition channel_live : ack_env := AckEnv None None.

End Scenario.

(** * Properties of the bridge *)

Import RabbitMQService.

Section Bridge.

Context {json : Type}.
Variable JSON_parse : string → option json.
Variable JSON_stringify : json → string.

#[local] Abbreviation run' := (run JSON_parse JSON_stringify).
#[local] Abbreviation step' := (step JSON_parse JSON_stringify).
#[local] Abbreviation invariant' := (invariant JSON_parse).

Ltac map_cases c c' :=
  destruct (decide (c = c')) as [<-|?];
  repeat (progress
    (rewrite ?lookup_insert_eq, ?lookup_delete_eq, ?lookup_alter_eq,
       ?lookup_insert_ne, ?lookup_delete_ne, ?lookup_alter_ne in * by done)).

(** ** Connection management never touches a pending call *)

Lemma cleanup_same env (s : @State json) : same_calls s (cleanup env s).
Proof.
  unfold same_calls, cleanup.
  repeat case_match; simplify_eq; by repeat split.
Qed.

Lemma connect_same env (s : @State json) : same_calls s (connect env s).1.
Proof.
  unfold same_calls, connect.
  repeat case_match; simplify_eq; by repeat split.
Qed.

Lemma subscribe_same q r (s : @State json) : same_calls s (subscribe q r s).1.
Proof.
  unfold same_calls, subscribe.
  repeat case_match; simplify_eq; by repeat split.
Qed.

Lemma publish_same ex rk (m : json) thr (s : @State json) :
  same_calls s (publish JSON_stringify ex rk m thr s).1.
Proof.
  unfold same_calls, publish.
  repeat case_match; simplify_eq; by repeat split.
Qed.

Lemma same_calls_refl (s : @State json) : same_calls s s.
Proof. by repeat split. Qed.

Lemma same_calls_trans (s1 s2 s3 : @State json) :
  same_calls s1 s2 → same_calls s2 s3 → same_calls s1 s3.
Proof.
  unfold same_calls. intros (?&?&?&?&?&?) (?&?&?&?&?&?).
  repeat split; try congruence. auto.
Qed.

Lemma reconnect_same env (s : @State json) : same_calls s (reconnect env s).
Proof.
  unfold reconnect.
  pose proof (cleanup_same env s) as H1.
  pose proof (connect_same env (cleanup env s)) as H2.
  destruct (connect env (cleanup env s)) as [s2 [err|]]; simpl in *.
  - eapply same_calls_trans; [exact H1|].
    eapply same_calls_trans; [exact H2|]. done.
  - unfold setupSubscriptions.
    pose proof (subscribe_same RabbitMQQueues.INVENTORY_UPDATES
                  (subscribe_reply env) s2) as H3.
    destruct (subscribe _ _ s2) as [s3 [err|]]; simpl in *;
    (eapply same_calls_trans; [exact H1|]; eapply same_calls_trans; [exact H2|];
     eapply same_calls_trans; [exact H3|]; done).
Qed.

Lemma onModuleInit_same env (s : @State json) :
  same_calls s (onModuleInit env s).1.
Proof.
  unfold onModuleInit.
  pose proof (connect_same env s) as H2.
  destruct (connect env s) as [s2 [err|]]; simpl in *; [done|].
  eapply same_calls_trans; [exact H2|]. apply subscribe_same.
Qed.

(** ** The trace invariant *)

Lemma events_of_snoc cid c (t : terminal json) l :
  events_of cid (l ++ [(c, t)]) =
  if decide (c = cid) then events_of cid l ++ [t] else events_of cid l.
Proof.
  unfold events_of. rewrite filter_app, fmap_app.
  rewrite filter_cons, filter_nil. simpl.
  destruct (decide (c = cid)); simpl; [done | by rewrite app_nil_r].
Qed.

Lemma events_of_elem cid (t : terminal json) l :
  (cid, t) ∈ l ↔ t ∈ events_of cid l.
Proof.
  unfold events_of. rewrite list_elem_of_fmap. split.
  - intros H. exists (cid, t). split; [done|]. by apply list_elem_of_filter.
  - intros ([c t'] & -> & [Hc Hin]%list_elem_of_filter). simpl in *. by subst.
Qed.

Lemma events_of_nil cid (t : terminal json) l :
  events_of cid l = [] → (cid, t) ∉ l.
Proof.
  intros H Hin. apply events_of_elem in Hin. rewrite H in Hin.
  by apply not_elem_of_nil in Hin.
Qed.

Lemma call_ids_snoc (evs : list (@event json)) ev :
  call_ids (evs ++ [ev]) =
  call_ids evs ++
  match ev with EvCall _ _ _ _ env => [uuidv4 env] | _ => [] end.
Proof. unfold call_ids. rewrite omap_app. simpl. by destruct ev. Qed.

Lemma call_ids_mono (evs : list (@event json)) ev cid :
  cid ∈ call_ids evs → cid ∈ call_ids (evs ++ [ev]).
Proof. rewrite call_ids_snoc. intros H. apply elem_of_app; by left. Qed.

Lemma invariant_same evs ev s s' :
  invariant' evs s → same_calls s s' → invariant' (evs ++ [ev]) s'.
Proof.
  intros [I1 I2 I3 I4 I5 I6] (Hre & Hp & Ht & Hte & Hc & Hch).
  split; unfold terminal_events in *; rewrite ?Hre, ?Hp, ?Ht, ?Hte.
  - done.
  - intros cid H. destruct (I2 cid H) as (?&?&?). eauto using call_ids_mono.
  - intros cid t H. destruct (I3 cid t H) as (?&?&?&?&?).
    eauto 10 using call_ids_mono.
  - intros cid v H. destruct (I4 cid v H) as (m & r & ? & ? & ?).
    exists m, r. split; [|done]. apply elem_of_app; by left.
  - done.
  - eauto.
Qed.

Lemma invariant_fresh evs s cid :
  invariant' evs s → cid ∉ call_ids evs →
  timers s !! cid = None ∧ responseEmitter s !! cid = None ∧
  terminal_events cid s = [].
Proof.
  intros [I1 I2 I3 I4 _ _] Hf.
  assert (timers s !! cid = None) as Ht.
  { destruct (timers s !! cid) eqn:E; [|done].
    destruct (I2 cid) as (?&?&?); [by rewrite E|done]. }
  split; [done|]. split.
  - destruct (responseEmitter s !! cid) eqn:E; [|done].
    destruct (I1 _ _ E) as [_ [? Hs]]. congruence.
  - destruct (terminal_events cid s) as [|t l] eqn:E; [done|].
    assert ((cid, t) ∈ terminals s) as Hin.
    { apply events_of_elem. unfold terminal_events in E. rewrite E.
      apply list_elem_of_here. }
    destruct (I3 _ _ Hin) as (?&_). done.
Qed.

Lemma invariant_call evs s exchange routingKey message timeout env :
  invariant' evs s → uuidv4 env ∉ call_ids evs →
  invariant' (evs ++ [EvCall exchange routingKey message timeout env])
    (publishWithResponse JSON_stringify exchange routingKey message timeout
       env s).1.
Proof.
  intros Hinv Hfresh.
  destruct (invariant_fresh _ _ _ Hinv Hfresh) as (Ft & Fre & Fte).
  set (ev := EvCall _ _ _ _ _).
  assert (uuidv4 env ∈ call_ids (evs ++ [ev])) as Hnew.
  { rewrite call_ids_snoc. simpl. apply elem_of_app. right.
    by apply list_elem_of_singleton. }
  unfold publishWithResponse, publishWithResponse_catch, deleteQueue_swallowed.
  destruct (channel s) eqn:Hch; simpl;
    [|by eapply invariant_same; [exact Hinv | apply same_calls_refl]].
  destruct Hinv as [I1 I2 I3 I4 I5 I6].
  destruct (assertQueue_reply env) as [err|queue]; simpl.
  { split; unfold terminal_events; simpl.
    - intros cid' ent. map_cases (uuidv4 env) cid'; [done|]. apply I1.
    - intros cid' H. destruct (I2 cid' H) as (?&?&?). eauto using call_ids_mono.
    - intros cid' t H. destruct (I3 cid' t H) as (?&?&?&?&?).
      map_cases (uuidv4 env) cid'; eauto 10 using call_ids_mono.
    - intros cid' v H. destruct (I4 cid' v H) as (m & r & ? & ? & ?).
      exists m, r. split; [|done]. apply elem_of_app; by left.
    - done.
    - intros cid' H. rewrite Hch. by eexists. }
  assert (∀ cid' t, (cid', t) ∈ terminals s → cid' ≠ uuidv4 env) as Hne.
  { intros cid' t H ->. by destruct (I3 _ _ H) as (?&_). }
  destruct (consume_reply env), (publish_throws env); simpl;
  (split; unfold terminal_events; simpl;
   [ intros cid' ent; map_cases (uuidv4 env) cid'; try done;
     try (intros [= <-]; split; [done|by eexists]); apply I1
   | intros cid' H; map_cases (uuidv4 env) cid'; [done|];
     destruct (I2 cid' H) as (?&?&?); eauto using call_ids_mono
   | intros cid' t H; destruct (I3 cid' t H) as (?&?&?&?&?);
     pose proof (Hne _ _ H);
     map_cases (uuidv4 env) cid'; [done|]; eauto 10 using call_ids_mono
   | intros cid' v H; destruct (I4 cid' v H) as (m & r & ? & ? & ?);
     exists m, r; split; [|done]; apply elem_of_app; by left
   | intros cid' p; map_cases (uuidv4 env) cid';
     [intros [= <-]; by left | apply I5]
   | intros cid' H; rewrite Hch; by eexists ]).
Qed.

Lemma invariant_terminal evs ev s s' cid t :
  invariant' evs s → is_Some (timers s !! cid) →
  responseEmitter s' = delete cid (responseEmitter s) →
  timers s' = delete cid (timers s) →
  promises s' !! cid = Some (settle t) →
  (∀ c, c ≠ cid → promises s' !! c = promises s !! c) →
  terminals s' = terminals s ++ [(cid, t)] →
  (∀ v, t = Resolve v →
     ∃ msg reply, ev = EvDeliver cid (Some msg) reply ∧
       correlationId msg = Some cid ∧ JSON_parse (content msg) = Some v) →
  channel s' = channel s →
  invariant' (evs ++ [ev]) s'.
Proof.
  intros [I1 I2 I3 I4 I5 I6] Harmed Hre Htm Hp Hp' Hte Hsrc Hch.
  destruct (I2 _ Harmed) as (Hid & Hpend & Hnone).
  split; unfold terminal_events in *; rewrite ?Hre, ?Htm, ?Hte.
  - intros c ent. map_cases cid c; [done|]. apply I1.
  - intros c. map_cases cid c; [by intros [? [=]]|]. intros H.
    destruct (I2 c H) as (?&?&?).
    rewrite events_of_snoc, decide_False, Hp' by done.
    eauto using call_ids_mono.
  - intros c t' [H|H%list_elem_of_singleton]%elem_of_app.
    + assert (c ≠ cid) as Hne.
      { intros ->. by eapply events_of_nil in Hnone. }
      destruct (I3 c t' H) as (?&?&?&?&?).
      rewrite events_of_snoc, decide_False, Hp' by done.
      map_cases cid c; [done|]. eauto 10 using call_ids_mono.
    + injection H as -> ->. rewrite events_of_snoc, decide_True, Hnone by done.
      rewrite !lookup_delete_eq. eauto 10 using call_ids_mono.
  - intros c v [H|H%list_elem_of_singleton]%elem_of_app.
    + destruct (I4 c v H) as (m & r & ? & ? & ?).
      exists m, r; split; [|done]; apply elem_of_app; by left.
    + injection H as -> <-. destruct (Hsrc v eq_refl) as (m & r & -> & ? & ?).
      exists m, r. split; [|done]. apply elem_of_app. right.
      by apply list_elem_of_singleton.
  - intros c p. destruct (decide (c = cid)) as [->|Hne].
    + rewrite Hp. intros [= <-]. right. exists t. split; [|done].
      apply elem_of_app. right. by apply list_elem_of_singleton.
    + rewrite Hp' by done. intros H.
      destruct (I5 _ _ H) as [?|(t' & ? & ?)]; [by left|].
      right. exists t'. split; [|done]. apply elem_of_app; by left.
  - intros c. map_cases cid c; [by intros [? [=]]|]. rewrite Hch. apply I6.
Qed.

Lemma invariant_disarm evs ev s s' cid :
  invariant' evs s →
  responseEmitter s' = delete cid (responseEmitter s) →
  timers s' = delete cid (timers s) →
  promises s' = promises s →
  terminals s' = terminals s →
  channel s' = channel s →
  invariant' (evs ++ [ev]) s'.
Proof.
  intros [I1 I2 I3 I4 I5 I6] Hre Htm Hp Hte Hch.
  split; unfold terminal_events in *; rewrite ?Hre, ?Htm, ?Hte, ?Hp.
  - intros c ent. map_cases cid c; [done|]. apply I1.
  - intros c. map_cases cid c; [by intros [? [=]]|]. intros H.
    destruct (I2 c H) as (?&?&?). eauto using call_ids_mono.
  - intros c t' H. destruct (I3 c t' H) as (?&?&?&?&?).
    map_cases cid c; eauto 10 using call_ids_mono.
  - intros c v H. destruct (I4 c v H) as (m & r & ? & ? & ?).
    exists m, r; split; [|done]; apply elem_of_app; by left.
  - done.
  - intros c. map_cases cid c; [by intros [? [=]]|]. rewrite Hch. apply I6.
Qed.

Lemma invariant_step evs s ev :
  invariant' evs s → well_formed (evs ++ [ev]) →
  invariant' (evs ++ [ev]) (step' s ev).
Proof.
  intros Hinv Hwf.
  destruct ev as [ex rk m t env|cid r|cid msg r|err|env|env|env|env|ex rk m thr]; simpl.
  - apply invariant_call; [done|].
    unfold well_formed in Hwf. rewrite call_ids_snoc in Hwf.
    apply NoDup_app in Hwf as (_ & Hwf & _). intros H. apply (Hwf _ H).
    by apply list_elem_of_singleton.
  - destruct (timers s !! cid) as [tm|] eqn:Htm;
      [|by eapply invariant_same; [exact Hinv | apply same_calls_refl]].
    unfold onTimeout, clearTimeout, deleteQueue_logged. simpl.
    destruct (channel s), r; simpl.
    1,2: eapply (invariant_terminal _ _ s _ cid TimeoutReject); try done; simpl;
      [ destruct Hinv as [_ I2 _ _ _ _]; rewrite lookup_alter_eq;
        by destruct (I2 cid) as (_ & -> & _)
      | intros c Hc; by rewrite lookup_alter_ne ].
    1,2: by eapply (invariant_disarm _ _ s _ cid).
  - destruct (consumers s !! cid) as [queue|] eqn:Hq;
      [|by eapply invariant_same; [exact Hinv | apply same_calls_refl]].
    unfold onReply, deleteQueue_logged.
    destruct msg as [msg|];
      [|by eapply invariant_same; [exact Hinv | apply same_calls_refl]].
    destruct (decide (correlationId msg = Some cid)) as [Hc|Hc];
      [|by eapply invariant_same; [exact Hinv | apply same_calls_refl]].
    destruct (JSON_parse (content msg)) as [response|] eqn:Hparse;
      [|by eapply invariant_same; [exact Hinv | by repeat split]].
    destruct (responseEmitter s !! cid) as [ent|] eqn:Hent.
    + pose proof Hinv as [I1 I2 _ _ _ _]. destruct (I1 _ _ Hent) as [-> Harmed].
      unfold clearTimeout; simpl.
      destruct (channel s), r; simpl;
      (eapply (invariant_terminal _ _ s _ cid (Resolve response));
       try done; simpl;
       [ rewrite lookup_alter_eq; by destruct (I2 cid) as (_ & -> & _)
       | intros c Hne; by rewrite lookup_alter_ne
       | intros v [= <-]; eauto ]).
    + destruct (channel s), r; simpl;
        (eapply invariant_same; [exact Hinv | by repeat split]).
  - eapply invariant_same; [exact Hinv | by repeat split].
  - eapply invariant_same; [exact Hinv|].
    unfold onConnectionClose.
    eapply same_calls_trans; [|apply reconnect_same]. by repeat split.
  - destruct (retries s);
      [by eapply invariant_same; [exact Hinv | apply same_calls_refl]|].
    eapply invariant_same; [exact Hinv|].
    eapply same_calls_trans; [|apply reconnect_same]. by repeat split.
  - eapply invariant_same; [exact Hinv|]. apply onModuleInit_same.
  - eapply invariant_same; [exact Hinv|]. apply cleanup_same.
  - eapply invariant_same; [exact Hinv|]. apply publish_same.
Qed.

Lemma invariant_initial : invariant' [] initial.
Proof.
  split; simpl.
  - intros cid e. by rewrite lookup_empty.
  - intros cid [? H]. by rewrite lookup_empty in H.
  - intros cid t H. by apply not_elem_of_nil in H.
  - intros cid t H. by apply not_elem_of_nil in H.
  - intros cid p. by rewrite lookup_empty.
  - intros cid [? H]. by rewrite lookup_empty in H.
Qed.

Lemma run_snoc s evs ev : run' s (evs ++ [ev]) = step' (run' s evs) ev.
Proof. unfold run. by rewrite foldl_app. Qed.

Lemma well_formed_snoc (evs : list (@event json)) ev :
  well_formed (evs ++ [ev]) → well_formed evs.
Proof.
  unfold well_formed. rewrite call_ids_snoc. by intros (? & _)%NoDup_app.
Qed.

Lemma invariant_run evs :
  well_formed evs → invariant' evs (run' initial evs).
Proof.
  induction evs as [|ev evs IH] using rev_ind; intros Hwf.
  - apply invariant_initial.
  - rewrite run_snoc. apply invariant_step; [|done].
    apply IH. by eapply well_formed_snoc.
Qed.

(** ** Terminal events and cross-delivery *)

Lemma terminals_step s ev : terminals s `prefix_of` terminals (step' s ev).
Proof.
  destruct ev as [ex rk m t env|cid r|cid msg r|err|env|env|env|env|ex rk m thr]; simpl.
  - unfold publishWithResponse, publishWithResponse_catch,
      deleteQueue_swallowed.
    repeat case_match; simpl; done.
  - unfold onTimeout, clearTimeout, deleteQueue_logged.
    repeat case_match; simpl; try done; by apply prefix_app_r.
  - unfold onReply, clearTimeout, deleteQueue_logged.
    repeat case_match; simpl; try done; by apply prefix_app_r.
  - done.
  - unfold onConnectionClose.
    destruct (reconnect_same env
                (logger_warn
                   "RabbitMQ Connection Closed. Attempting to reconnect..." s))
      as (_&_&_&H&_).
    by rewrite H.
  - destruct (retries s); [done|].
    destruct (reconnect_same env (set_retries n s)) as (_&_&_&H&_).
    by rewrite H.
  - destruct (onModuleInit_same env s) as (_&_&_&H&_). by rewrite H.
  - destruct (cleanup_same env s) as (_&_&_&H&_).
    unfold onModuleDestroy. by rewrite H.
  - destruct (publish_same ex rk m thr s) as (_&_&_&H&_). by rewrite H.
Qed.

Lemma terminals_run s evs : terminals s `prefix_of` terminals (run' s evs).
Proof.
  revert s. induction evs as [|ev evs IH]; intros s; simpl; [done|].
  etrans; [apply terminals_step | apply IH].
Qed.

Lemma run_app s evs evs' : run' s (evs ++ evs') = run' (run' s evs) evs'.
Proof. unfold run. by rewrite foldl_app. Qed.

Lemma well_formed_app_l (evs evs' : list (@event json)) :
  well_formed (evs ++ evs') → well_formed evs.
Proof.
  unfold well_formed, call_ids. rewrite omap_app. by intros (? & _)%NoDup_app.
Qed.

Lemma late_reply_ignored s cid msg reply :
  responseEmitter s !! cid = None →
  let s' := step' s (EvDeliver cid msg reply) in
  promises s' = promises s ∧ terminals s' = terminals s ∧
  responseEmitter s' = responseEmitter s ∧ timers s' = timers s.
Proof.
  intros Hnone. simpl. unfold onReply, deleteQueue_logged.
  repeat case_match; simplify_eq; done.
Qed.

(** C1: after any trace in which [uuidv4] never repeats, at most one
    terminal event (a [resolve] with the reply, or the timeout [reject]) has
    been applied to a call; once one has, the registry holds no entry for
    the call, the caller's outcome is the one of that event, and it stays so
    whatever happens next: a reply handed to the consumer afterwards changes
    neither the promises, nor the registry, nor the list of terminal
    events. *)
Theorem one_terminal_event_per_call evs evs' cid t :
  well_formed (evs ++ evs') →
  let s := run' initial evs in
  let s' := run' initial (evs ++ evs') in
  (length (terminal_events cid s) ≤ 1)%nat ∧
  (t ∈ terminal_events cid s →
     responseEmitter s !! cid = None ∧
     outcome (Returned cid) s = settle t ∧
     terminal_events cid s' = [t] ∧
     outcome (Returned cid) s' = settle t ∧
     ∀ msg reply,
       let s'' := step' s (EvDeliver cid msg reply) in
       promises s'' = promises s ∧ terminals s'' = terminals s ∧
       responseEmitter s'' = responseEmitter s).
Proof.
  intros Hwf s s'.
  pose proof (invariant_run _ (well_formed_app_l _ _ Hwf)) as Hinv.
  pose proof (invariant_run _ Hwf) as Hinv'.
  fold s in Hinv. fold s' in Hinv'.
  split.
  - destruct (terminal_events cid s) as [|t0 l] eqn:E; [simpl; lia|].
    assert ((cid, t0) ∈ terminals s) as Hin.
    { apply events_of_elem. fold (terminal_events cid s). rewrite E.
      apply list_elem_of_here. }
    destruct (inv_terminal _ _ _ Hinv _ _ Hin) as (_ & E' & _).
    rewrite E' in E. assert (l = []) as -> by congruence. simpl. lia.
  - intros Hin%events_of_elem.
    destruct (inv_terminal _ _ _ Hinv _ _ Hin) as (_ & _ & Hre & _ & Hp).
    assert ((cid, t) ∈ terminals s') as Hin'.
    { unfold s'. rewrite run_app. fold s.
      destruct (terminals_run s evs') as [l ->]. apply elem_of_app; by left. }
    destruct (inv_terminal _ _ _ Hinv' _ _ Hin') as (_ & Hte' & _ & _ & Hp').
    unfold outcome. rewrite Hp, Hp'. repeat split; try done.
    all: by destruct (late_reply_ignored s cid msg reply Hre) as (?&?&?&?).
Qed.

Lemma call_registers s exchange routingKey message timeout env queue :
  is_Some (channel s) →
  assertQueue_reply env = inr queue →
  consume_reply env = None → publish_throws env = None →
  let r :=
    publishWithResponse JSON_stringify exchange routingKey message timeout
      env s in
  r.2 = Returned (uuidv4 env) ∧
  responseEmitter r.1 !! uuidv4 env =
    Some (Entry (uuidv4 env) (uuidv4 env) (uuidv4 env)) ∧
  consumers r.1 !! uuidv4 env = Some queue ∧
  promises r.1 !! uuidv4 env = Some Pending ∧
  timers r.1 !! uuidv4 env = Some (Timer (default 30000 timeout) queue).
Proof.
  intros [ch Hch] Hq Hc Hp. unfold publishWithResponse.
  rewrite Hch, Hq, Hc, Hp. simpl. by rewrite !lookup_insert_eq.
Qed.

Lemma unconcerned_step evs s ev cid :
  invariant' evs s → concerns cid ev = false →
  responseEmitter (step' s ev) !! cid = responseEmitter s !! cid ∧
  consumers (step' s ev) !! cid = consumers s !! cid ∧
  promises (step' s ev) !! cid = promises s !! cid ∧
  timers (step' s ev) !! cid = timers s !! cid.
Proof.
  intros Hinv Hun.
  destruct ev as [ex rk m t env|c r|c msg r|err|env|env|env|env|ex rk m thr];
    simpl in Hun; try apply bool_decide_eq_false in Hun; simpl.
  - unfold publishWithResponse, publishWithResponse_catch,
      deleteQueue_swallowed.
    repeat case_match; simpl;
      by rewrite ?lookup_delete_ne, ?lookup_insert_ne.
  - unfold onTimeout, clearTimeout, deleteQueue_logged.
    repeat case_match; simpl;
      by rewrite ?lookup_alter_ne, ?lookup_delete_ne.
  - unfold onReply, clearTimeout, deleteQueue_logged.
    destruct (consumers s !! c); [|done]. destruct msg as [msg|]; [|done].
    destruct (decide (correlationId msg = Some c)); [|done].
    destruct (JSON_parse (content msg)); [|done].
    destruct (responseEmitter s !! c) as [ent|] eqn:Hent.
    + destruct (inv_entry _ _ _ Hinv _ _ Hent) as [-> _].
      simpl. destruct (channel s), r; simpl;
        by rewrite ?lookup_alter_ne, ?lookup_delete_ne.
    + by repeat case_match.
  - done.
  - unfold onConnectionClose.
    destruct (reconnect_same env
                (logger_warn
                   "RabbitMQ Connection Closed. Attempting to reconnect..." s))
      as (-> & -> & -> & _ & -> & _).
    done.
  - destruct (retries s); [done|].
    destruct (reconnect_same env (set_retries n s))
      as (-> & -> & -> & _ & -> & _).
    done.
  - destruct (onModuleInit_same env s) as (-> & -> & -> & _ & -> & _). done.
  - unfold onModuleDestroy.
    destruct (cleanup_same env s) as (-> & -> & -> & _ & -> & _). done.
  - destruct (publish_same ex rk m thr s) as (-> & -> & -> & _ & -> & _).
    done.
Qed.

Lemma unconcerned_run evs others cid :
  well_formed (evs ++ others) →
  Forall (λ ev, concerns cid ev = false) others →
  let s := run' initial evs in
  let s' := run' initial (evs ++ others) in
  responseEmitter s' !! cid = responseEmitter s !! cid ∧
  consumers s' !! cid = consumers s !! cid ∧
  promises s' !! cid = promises s !! cid ∧
  timers s' !! cid = timers s !! cid.
Proof.
  induction others as [|ev others IH] using rev_ind; intros Hwf Hall; simpl.
  - by rewrite app_nil_r.
  - rewrite app_assoc in Hwf |- *. rewrite run_snoc.
    apply Forall_app in Hall as [Hall [Hev _]%Forall_cons].
    pose proof (well_formed_snoc _ _ Hwf) as Hwf'.
    destruct (IH Hwf' Hall) as (<- & <- & <- & <-).
    exact (unconcerned_step (evs ++ others) _ ev cid
             (invariant_run _ Hwf') Hev).
Qed.

(** C7: with distinct correlation ids, a caller whose promise is fulfilled
    with [v] got it from a delivered message whose [correlationId] property
    is its own id and whose body decodes to [v].  A call that went out is
    pending, and whatever has happened to other calls since (their
    invocations, timeouts, replies, in any order), a reply carrying its id
    resolves it with that reply's payload and touches no other call.  A
    message tagged with another id is dropped by the consumer. *)
Theorem no_cross_delivery evs cid :
  well_formed evs →
  let s := run' initial evs in
  (∀ v, outcome (Returned cid) s = Fulfilled v →
     ∃ msg reply, EvDeliver cid (Some msg) reply ∈ evs ∧
       correlationId msg = Some cid ∧ JSON_parse (content msg) = Some v) ∧
  (∀ before exchange routingKey message timeout env queue others msg reply v,
     evs =
       before ++ [EvCall exchange routingKey message timeout env] ++ others →
     uuidv4 env = cid →
     is_Some (channel (run' initial before)) →
     assertQueue_reply env = inr queue →
     consume_reply env = None → publish_throws env = None →
     Forall (λ ev, concerns cid ev = false) others →
     correlationId msg = Some cid → JSON_parse (content msg) = Some v →
     let s' := step' s (EvDeliver cid (Some msg) reply) in
     outcome (Returned cid) s = Pending ∧
     outcome (Returned cid) s' = Fulfilled v ∧
     ∀ c, c ≠ cid →
       promises s' !! c = promises s !! c ∧
       responseEmitter s' !! c = responseEmitter s !! c ∧
       timers s' !! c = timers s !! c) ∧
  (∀ msg reply, correlationId msg ≠ Some cid →
     step' s (EvDeliver cid (Some msg) reply) = s).
Proof.
  intros Hwf s. pose proof (invariant_run _ Hwf) as Hinv. fold s in Hinv.
  split; [|split].
  - intros v. unfold outcome.
    destruct (promises s !! cid) as [p|] eqn:Hp; simpl; [|done]. intros ->.
    destruct (inv_promise _ _ _ Hinv _ _ Hp) as [?|(t & Hin & Ht)]; [done|].
    destruct t; [|done]. injection Ht as <-.
    by apply (inv_resolved _ _ _ Hinv).
  - intros before ex rk m t env queue others msg reply v
      Hevs <- Hch Hq Hcons Hpub Hall Hc Hparse.
    assert (responseEmitter s !! uuidv4 env =
              Some (Entry (uuidv4 env) (uuidv4 env) (uuidv4 env)) ∧
            consumers s !! uuidv4 env = Some queue ∧
            promises s !! uuidv4 env = Some Pending) as (Hent & Hcq & Hp).
    { subst s. rewrite Hevs, app_assoc. rewrite Hevs, app_assoc in Hwf.
      destruct (unconcerned_run _ _ (uuidv4 env) Hwf Hall)
        as (-> & -> & -> & _).
      rewrite run_snoc. simpl.
      by destruct (call_registers (run' initial before) ex rk m t env queue
                     Hch Hq Hcons Hpub) as (_ & ? & ? & ? & _). }
    simpl. unfold outcome, onReply, clearTimeout, deleteQueue_logged.
    rewrite Hcq, Hparse, Hent, decide_True, Hp by done. simpl.
    split; [done|].
    destruct (channel s), reply; simpl; rewrite lookup_alter_eq, Hp; simpl;
      (split; [done|]; intros c Hne;
       by rewrite lookup_alter_ne, !lookup_delete_ne).
  - intros msg reply Hc. simpl. unfold onReply.
    destruct (consumers s !! cid); [|done]. by rewrite decide_False.
Qed.

(** ** Connection loss and queue deletion *)

Lemma deletions_app l l' : deletions (l ++ l') = deletions l ++ deletions l'.
Proof. unfold deletions. by rewrite omap_app. Qed.

Lemma deletions_topology n : deletions (take n topology) = [].
Proof. do 7 (destruct n as [|n]; [done|]). done. Qed.

Lemma cleanup_deletions env (s : @State json) :
  deletions (ops (cleanup env s)) = deletions (ops s).
Proof.
  unfold cleanup, issue, logger_error. repeat case_match; simplify_eq; simpl;
    rewrite ?deletions_app; simpl; by rewrite ?app_nil_r.
Qed.

Lemma connect_deletions env (s : @State json) :
  deletions (ops (connect env s).1) = deletions (ops s).
Proof.
  unfold connect, issue, issue_all, logger_error.
  repeat case_match; simplify_eq; cbn -[topology take deletions];
    rewrite ?deletions_app, ?deletions_topology; cbn; by rewrite ?app_nil_r.
Qed.

Lemma subscribe_deletions q r (s : @State json) :
  deletions (ops (subscribe q r s).1) = deletions (ops s).
Proof.
  unfold subscribe, issue, logger_error. repeat case_match; simplify_eq; simpl;
    rewrite ?deletions_app; simpl; by rewrite ?app_nil_r.
Qed.

Lemma reconnect_deletions env (s : @State json) :
  deletions (ops (reconnect env s)) = deletions (ops s).
Proof.
  unfold reconnect, setupSubscriptions.
  pose proof (connect_deletions env (cleanup env s)) as H2.
  destruct (connect env (cleanup env s)) as [s2 [err|]]; simpl in *.
  - by rewrite H2, cleanup_deletions.
  - pose proof (subscribe_deletions RabbitMQQueues.INVENTORY_UPDATES
                  (subscribe_reply env) s2) as H3.
    destruct (subscribe _ _ s2) as [s3 [err|]]; simpl in *;
      by rewrite H3, H2, cleanup_deletions.
Qed.

Lemma channel_kept env (s : @State json) :
  is_Some (channel s) → is_Some (channel (onConnectionClose env s)).
Proof.
  intros H. unfold onConnectionClose.
  by apply (reconnect_same env (logger_warn _ s)).
Qed.

Lemma onConnectionClose_same env (s : @State json) :
  same_calls s (onConnectionClose env s).
Proof.
  unfold onConnectionClose.
  eapply same_calls_trans; [|apply reconnect_same]. by repeat split.
Qed.

(** C2, as the code has it: when the connection closes while a call is
    registered, the ['close'] handler leaves the registry, the promises, the
    timers and the terminal events as they were; the call stays pending and
    is rejected with ['Request timeout'] when its own timer expires. *)
Theorem connection_loss_leaves_calls_pending evs env cid ent :
  well_formed evs →
  let s := run' initial evs in
  responseEmitter s !! cid = Some ent →
  let s' := step' s (EvClose env) in
  responseEmitter s' = responseEmitter s ∧ promises s' = promises s ∧
  timers s' = timers s ∧ terminals s' = terminals s ∧
  outcome (Returned cid) s' = Pending ∧
  ∀ reply,
    outcome (Returned cid) (step' s' (EvTimer cid reply)) =
    Rejected (Error "Request timeout").
Proof.
  intros Hwf s Hent s'.
  pose proof (invariant_run _ Hwf) as Hinv. fold s in Hinv.
  destruct (inv_entry _ _ _ Hinv _ _ Hent) as [-> [tm Htm]].
  destruct (inv_timer _ _ _ Hinv cid) as (_ & Hp & _); [by eexists|].
  destruct (inv_channel _ _ _ Hinv cid) as [ch Hch]; [by eexists|].
  destruct (onConnectionClose_same env s) as (Hre & Hpr & Ht & Hte & _ & Hc).
  destruct Hc as [ch' Hch']; [by eexists|].
  subst s'. simpl. repeat split; try done.
  - unfold outcome. by rewrite Hpr, Hp.
  - intros reply. rewrite Ht, Htm.
    unfold outcome, onTimeout, clearTimeout, deleteQueue_logged. simpl.
    rewrite Hch'. destruct reply; simpl; by rewrite lookup_alter_eq, Hpr, Hp.
Qed.

(** C3, as the code has it: at the terminal event of a registered call (its
    timer expires, or a matching reply is delivered) the deletion of its
    reply queue is requested exactly once; a failed deletion is logged, the
    caller's outcome is the same and nothing is thrown.  A connection loss
    requests no deletion and leaves the call pending. *)
Theorem deleteQueue_once_at_terminal_event evs cid ent tm queue :
  well_formed evs →
  let s := run' initial evs in
  responseEmitter s !! cid = Some ent →
  timers s !! cid = Some tm →
  consumers s !! cid = Some queue →
  (∀ reply,
     let s' := step' s (EvTimer cid reply) in
     ops s' = ops s ++ [OpDeleteQueue (t_queue tm)] ∧
     outcome (Returned cid) s' = Rejected (Error "Request timeout") ∧
     uncaught s' = uncaught s ∧
     logs s' = logs s ++
       match reply with
       | Some err => [LogError "Error deleting queue" err]
       | None => []
       end) ∧
  (∀ msg reply v,
     correlationId msg = Some cid → JSON_parse (content msg) = Some v →
     let s' := step' s (EvDeliver cid (Some msg) reply) in
     ops s' = ops s ++ [OpDeleteQueue queue] ∧
     outcome (Returned cid) s' = Fulfilled v ∧
     uncaught s' = uncaught s ∧
     logs s' = logs s ++
       match reply with
       | Some err => [LogError "Error deleting queue" err]
       | None => []
       end) ∧
  (∀ env,
     let s' := step' s (EvClose env) in
     deletions (ops s') = deletions (ops s) ∧
     outcome (Returned cid) s' = Pending).
Proof.
  intros Hwf s Hent Htm Hq.
  pose proof (invariant_run _ Hwf) as Hinv. fold s in Hinv.
  destruct (inv_entry _ _ _ Hinv _ _ Hent) as [-> _].
  destruct (inv_timer _ _ _ Hinv cid) as (_ & Hp & _); [by eexists|].
  destruct (inv_channel _ _ _ Hinv cid) as [ch Hch]; [by eexists|].
  split; [|split].
  - intros reply. simpl. rewrite Htm.
    unfold outcome, onTimeout, clearTimeout, deleteQueue_logged. simpl.
    rewrite Hch. destruct reply; simpl; rewrite lookup_alter_eq, Hp; simpl;
      by rewrite ?app_nil_r.
  - intros msg reply v Hc Hparse. simpl.
    unfold outcome, onReply, clearTimeout, deleteQueue_logged.
    rewrite Hq, Hparse, Hent, decide_True by done. simpl.
    rewrite Hch. destruct reply; simpl; rewrite lookup_alter_eq, Hp; simpl;
      by rewrite ?app_nil_r.
  - intros env. simpl. split.
    + unfold onConnectionClose. by rewrite reconnect_deletions.
    + destruct (onConnectionClose_same env s) as (_ & Hpr & _).
      unfold outcome. by rewrite Hpr, Hp.
Qed.

(** ** One call: ordering, failures, guard, timeout *)

(** A delivery for a call no consumer was registered for changes nothing. *)
Lemma deliver_without_consumer s cid msg reply :
  consumers s !! cid = None → step' s (EvDeliver cid msg reply) = s.
Proof. intros H. simpl. by rewrite H. Qed.

(** Among the operations one [publishWithResponse] issues on the channel,
    every publish comes after the request to [consume] on the queue the
    broker named for this call; a call that returns its promise has
    published. *)
Lemma publish_after_consume s exchange routingKey message timeout env :
  let r :=
    publishWithResponse JSON_stringify exchange routingKey message timeout
      env s in
  ∃ l, ops r.1 = ops s ++ l ∧
    (∀ i ex rk body c rt, l !! i = Some (OpPublish ex rk body c rt) →
       ∃ j queue, (j < i)%nat ∧ assertQueue_reply env = inr queue ∧
         l !! j = Some (OpConsume queue true)) ∧
    (∀ cid, r.2 = Returned cid →
       OpPublish exchange routingKey (JSON_stringify message)
         (Some cid) (Some ("response." +:+ cid)) ∈ l).
Proof.
  unfold publishWithResponse, publishWithResponse_catch,
    deleteQueue_swallowed, issue.
  destruct (channel s); simpl.
  2: { exists []. rewrite app_nil_r. repeat split; [|done].
       intros i. by rewrite lookup_nil. }
  destruct (assertQueue_reply env) as [err|queue]; simpl.
  { eexists [_; _]. rewrite <- !app_assoc. repeat split; [|done].
    intros [|[|i]]; simpl; try done. }
  destruct (consume_reply env), (publish_throws env); simpl;
    rewrite <- ?app_assoc; simpl;
    eexists; (split; [reflexivity|]); (split; [|try done]).
  all: try (intros [|[|[|[|i]]]]; simpl; try done;
            intros; exists 1%nat, queue; split; [lia|by split]).
  all: intros cid [= <-]; apply list_elem_of_lookup; by exists 2%nat.
Qed.

Lemma publish_failure_fails_fast s exchange routingKey message timeout env err :
  is_Some (channel s) →
  (assertQueue_reply env = inl err ∨
   (∃ queue, assertQueue_reply env = inr queue) ∧
   publish_throws env = Some err) →
  let r :=
    publishWithResponse JSON_stringify exchange routingKey message timeout
      env s in
  r.2 = Threw err ∧ responseEmitter r.1 !! uuidv4 env = None.
Proof.
  intros [ch Hch] H.
  unfold publishWithResponse, publishWithResponse_catch, deleteQueue_swallowed.
  rewrite Hch. destruct H as [->|[[queue ->] ->]]; simpl.
  - by rewrite lookup_delete_eq.
  - destruct (consume_reply env); simpl; by rewrite lookup_delete_eq.
Qed.

(** C6: with no channel, [publishWithResponse] throws ['Channel not
    initialized'] and leaves the service as it was: no registry entry, no
    queue declared. *)
Theorem channel_not_initialized s exchange routingKey message timeout env :
  channel s = None →
  publishWithResponse JSON_stringify exchange routingKey message timeout env s =
  (s, Threw (Error "Channel not initialized")).
Proof. intros H. unfold publishWithResponse. by rewrite H. Qed.


(** ** The subscriber *)




End Bridge.

(** * Properties of the order workflow *)

Section Orders.

Context {number : Type}.
Variable times : number → number → number.
Variable NaN : number.
Variable isNaN : number → bool.
Variable show : number → string.

#[local] Abbreviation createOrder' :=
  (OrderService.createOrder times NaN isNaN show).

(** What the repository stores for a valid order. *)
Lemma createOrder_stores dto env w check stock price :
  stockCheck_reply env = inr check →
  StockCheckResponse.success check = true →
  StockCheckResponse.availableStock check = Some stock →
  stock !! dto_productCode dto = Some price →
  dto_productCode dto ≠ "" →
  isNaN (times (dto_quantity dto) price) = false →
  isNaN (dto_quantity dto) = false →
  save_reply env = None →
  OrderRepository.createOrder isNaN dto (times (dto_quantity dto) price)
    PENDING (new_id env) (save_reply env)
    (OrderService.request "inventory.stock.check" w) =
  (MkWorld
     (<[new_id env :=
          MkOrder (dto_productCode dto) (dto_quantity dto)
            (times (dto_quantity dto) price) PENDING]> (orders w))
     (repo_calls w ++ [RepoCreate (new_id env) PENDING]) (order_logs w)
     (requests w ++ ["inventory.stock.check"]),
   inr (MkOrder (dto_productCode dto) (dto_quantity dto)
          (times (dto_quantity dto) price) PENDING)).
Proof.
  intros _ _ _ _ Hcode Hp Hq Hs. unfold OrderRepository.createOrder.
  by rewrite bool_decide_eq_false_2, Hp, Hq, Hs.
Qed.

(** C10, as the code has it: when the stock check succeeds with a price for
    the product, the order passes the schema (a product code that is not
    empty, numbers that are not [NaN]) and is stored as PENDING, and
    the stock deduction is rejected or answers [success = false], then,
    provided the update to FAILED is not itself rejected by the database,
    [createOrder] sets the order to FAILED and then throws the HTTP 500
    ['Failed to process order']; the repository sees the creation and that
    one update, never an update to CONFIRMED. *)
Theorem deduction_failure_marks_order_failed dto env w check stock price :
  stockCheck_reply env = inr check →
  StockCheckResponse.success check = true →
  StockCheckResponse.availableStock check = Some stock →
  stock !! dto_productCode dto = Some price →
  dto_productCode dto ≠ "" →
  isNaN (times (dto_quantity dto) price) = false →
  isNaN (dto_quantity dto) = false →
  save_reply env = None →
  ((∃ err, deduct_reply env = inl err) ∨
   (∃ deduction, deduct_reply env = inr deduction ∧
      StockCheckResponse.success deduction = false)) →
  fail_reply env = None →
  let r := createOrder' dto env w in
  r.2 = Throws (HttpException "Failed to process order"
                  HttpStatus.INTERNAL_SERVER_ERROR) ∧
  status <$> orders r.1 !! new_id env = Some FAILED ∧
  repo_calls r.1 =
    repo_calls w ++
    [RepoCreate (new_id env) PENDING; RepoUpdate (new_id env) FAILED].
Proof.
  intros Hcheck Hok Hstock Hprice Hcode Hp Hq Hsave Hdeduct Hfail.
  unfold OrderService.createOrder. rewrite Hcheck, Hok, Hstock, Hprice.
  cbn [negb].
  rewrite (createOrder_stores dto env w check stock price) by done.
  unfold OrderRepository.updateOrderStatus. rewrite Hfail.
  destruct Hdeduct as [[err ->]|(deduction & -> & ->)]; simpl;
    rewrite lookup_insert_eq; simpl; rewrite lookup_insert_eq; simpl;
    by rewrite <- app_assoc.
Qed.

End Orders.

(** * The scenarios, run *)

Lemma one_terminal_event_per_call_witness :
  well_formed
    ((Scenario.outstanding ++ [EvTimer "c-1" None]) ++
     [EvDeliver "c-1" (Some (Scenario.reply "c-1")) None]) ∧
  outcome (Returned "c-1")
    (Scenario.run
       ((Scenario.outstanding ++ [EvTimer "c-1" None]) ++
        [EvDeliver "c-1" (Some (Scenario.reply "c-1")) None])) =
  Rejected (Error "Request timeout").
Proof.
  assert (well_formed
    ((Scenario.outstanding ++ [EvTimer "c-1" None]) ++
     [EvDeliver "c-1" (Some (Scenario.reply "c-1")) None])) as Hwf.
  { apply (bool_decide_unpack _). vm_compute. exact I. }
  split; [exact Hwf|].
  destruct (one_terminal_event_per_call Scenario.parse Scenario.stringify
              _ _ "c-1" TimeoutReject Hwf) as [_ H].
  apply H. vm_compute. apply list_elem_of_here.
Defined.

Lemma no_cross_delivery_witness :
  well_formed Scenario.concurrent ∧
  outcome (Returned "c-1") (Scenario.run Scenario.concurrent) = Pending ∧
  outcome (Returned "c-1")
    (Scenario.step (Scenario.run Scenario.concurrent)
       (EvDeliver "c-1" (Some (Scenario.answer "c-1" "{stock:1}")) None)) =
  Fulfilled "{stock:1}".
Proof.
  assert (well_formed Scenario.concurrent) as Hwf.
  { apply (bool_decide_unpack _). vm_compute. exact I. }
  split; [exact Hwf|].
  destruct (no_cross_delivery Scenario.parse Scenario.stringify
              Scenario.concurrent "c-1" Hwf) as (_ & H & _).
  assert (is_Some (channel (Scenario.run [EvInit Scenario.broker_up])))
    as Hch.
  { exists 1%nat. reflexivity. }
  assert (Forall (λ ev, concerns "c-1" ev = false)
            [Scenario.stock_check (Some 1000) (Scenario.broker_answers "c-2");
             EvDeliver "c-2" (Some (Scenario.answer "c-2" "{stock:2}"))
               None]) as Hothers.
  { repeat constructor. }
  destruct (H [EvInit Scenario.broker_up] RabbitMQExchanges.INVENTORY
              "inventory.stock.check" "{productCode:PROD-1,quantity:2}"
              (Some 1000) (Scenario.broker_answers "c-1") "response.c-1"
              _ (Scenario.answer "c-1" "{stock:1}") None "{stock:1}"
              eq_refl eq_refl Hch eq_refl eq_refl eq_refl Hothers eq_refl
              eq_refl) as (Hp & Hv & _).
  split; [exact Hp | exact Hv].
Defined.

(** C2 fails on the code: the connection closes while the stock check is
    outstanding; afterwards the registry still holds its entry and the call
    is not rejected. *)
Lemma connection_loss_rejects_nothing :
  let s := Scenario.run Scenario.outstanding in
  let s' := Scenario.step s (EvClose Scenario.broker_up) in
  outcome (Returned "c-1") s = Pending ∧
  responseEmitter s' ≠ ∅ ∧
  ¬ ∃ e, outcome (Returned "c-1") s' = Rejected e.
Proof.
  split; [reflexivity|]. split.
  - intros H. apply (f_equal (λ m, m !! "c-1")) in H.
    vm_compute in H. discriminate.
  - intros [e H]. vm_compute in H. discriminate.
Qed.

Lemma connection_loss_leaves_calls_pending_witness :
  well_formed Scenario.outstanding ∧
  responseEmitter (Scenario.run Scenario.outstanding) !! "c-1" =
    Some (Entry "c-1" "c-1" "c-1") ∧
  outcome (Returned "c-1")
    (Scenario.step (Scenario.run Scenario.outstanding)
       (EvClose Scenario.broker_up)) = Pending.
Proof.
  assert (well_formed Scenario.outstanding) as Hwf.
  { apply (bool_decide_unpack _). vm_compute. exact I. }
  assert (responseEmitter (Scenario.run Scenario.outstanding) !! "c-1" =
          Some (Entry "c-1" "c-1" "c-1")) as Hent by reflexivity.
  split; [exact Hwf|]. split; [exact Hent|].
  destruct (connection_loss_leaves_calls_pending Scenario.parse
              Scenario.stringify Scenario.outstanding Scenario.broker_up
              "c-1" (Entry "c-1" "c-1" "c-1") Hwf Hent)
    as (_ & _ & _ & _ & H & _).
  exact H.
Defined.

(** C3 fails on the code: when the connection closes while the stock check
    is outstanding no deletion of its reply queue is requested, and the call
    has no outcome; when its timer expires and the reply arrives afterwards
    the deletion is requested twice. *)
Lemma deleteQueue_not_once_per_call :
  let lost :=
    Scenario.run (Scenario.outstanding ++ [EvClose Scenario.broker_up]) in
  let late :=
    Scenario.run
      (Scenario.outstanding ++
       [EvTimer "c-1" None;
        EvDeliver "c-1" (Some (Scenario.reply "c-1")) None]) in
  deletions (ops lost) = [] ∧
  outcome (Returned "c-1") lost = Pending ∧
  deletions (ops late) = ["response.c-1"; "response.c-1"] ∧
  outcome (Returned "c-1") late = Rejected (Error "Request timeout").
Proof. vm_compute. repeat split. Qed.

Lemma deleteQueue_once_at_terminal_event_witness :
  well_formed Scenario.outstanding ∧
  responseEmitter (Scenario.run Scenario.outstanding) !! "c-1" =
    Some (Entry "c-1" "c-1" "c-1") ∧
  timers (Scenario.run Scenario.outstanding) !! "c-1" =
    Some (Timer 1000 "response.c-1") ∧
  consumers (Scenario.run Scenario.outstanding) !! "c-1" =
    Some "response.c-1" ∧
  ∀ reply,
    ops (Scenario.step (Scenario.run Scenario.outstanding)
           (EvTimer "c-1" reply)) =
    ops (Scenario.run Scenario.outstanding) ++ [OpDeleteQueue "response.c-1"].
Proof.
  assert (well_formed Scenario.outstanding) as Hwf.
  { apply (bool_decide_unpack _). vm_compute. exact I. }
  assert (responseEmitter (Scenario.run Scenario.outstanding) !! "c-1" =
          Some (Entry "c-1" "c-1" "c-1")) as Hent by reflexivity.
  assert (timers (Scenario.run Scenario.outstanding) !! "c-1" =
          Some (Timer 1000 "response.c-1")) as Htm by reflexivity.
  assert (consumers (Scenario.run Scenario.outstanding) !! "c-1" =
          Some "response.c-1") as Hq by reflexivity.
  repeat (split; [assumption|]).
  intros reply.
  destruct (deleteQueue_once_at_terminal_event Scenario.parse
              Scenario.stringify Scenario.outstanding "c-1"
              (Entry "c-1" "c-1" "c-1") (Timer 1000 "response.c-1")
              "response.c-1" Hwf Hent Htm Hq) as [H _].
  destruct (H reply) as [Hops _]. exact Hops.
Defined.

(** C5 fails on the code: the broker refuses the [consume] on the reply
    queue.  The rejection is caught by nobody; the request is published, the
    call returns its promise, and promise and registry entry stay as they
    are until the timer expires. *)
Theorem consume_failure_is_not_propagated :
  let s := Scenario.run [EvInit Scenario.broker_up] in
  let r :=
    publishWithResponse Scenario.stringify RabbitMQExchanges.INVENTORY
      "inventory.stock.check" "{productCode:PROD-1,quantity:2}" None
      (Scenario.consume_refused "c-1") s in
  r.2 = Returned "c-1" ∧
  outcome r.2 r.1 = Pending ∧
  responseEmitter r.1 !! "c-1" = Some (Entry "c-1" "c-1" "c-1") ∧
  timers r.1 !! "c-1" = Some (Timer 30000 "response.c-1") ∧
  consumers r.1 !! "c-1" = None ∧
  uncaught r.1 = [Error "ACCESS_REFUSED"].
Proof. vm_compute. repeat split. Qed.

(** C4 fails on the code, by the defect of C5: [channel.consume] is
    requested but not awaited, so the request goes out whether or not the
    consumption has begun.  When the broker refuses the [consume], the
    request is published all the same and nobody listens on the reply
    queue: whatever is delivered for the call changes nothing, and the
    caller learns of it only when the timer expires. *)
Theorem publish_without_a_listener :
  let s := Scenario.run [EvInit Scenario.broker_up] in
  let r :=
    publishWithResponse Scenario.stringify RabbitMQExchanges.INVENTORY
      "inventory.stock.check" "{productCode:PROD-1,quantity:2}" None
      (Scenario.consume_refused "c-1") s in
  OpPublish RabbitMQExchanges.INVENTORY "inventory.stock.check"
    "{productCode:PROD-1,quantity:2}" (Some "c-1") (Some "response.c-1")
    ∈ ops r.1 ∧
  consumers r.1 !! "c-1" = None ∧
  (∀ msg reply, Scenario.step r.1 (EvDeliver "c-1" msg reply) = r.1) ∧
  outcome (Returned "c-1")
    (Scenario.step r.1
       (EvDeliver "c-1" (Some (Scenario.reply "c-1")) None)) = Pending ∧
  outcome (Returned "c-1") (Scenario.step r.1 (EvTimer "c-1" None)) =
    Rejected (Error "Request timeout").
Proof.
  split; [|split; [|split; [|split]]].
  - apply list_elem_of_lookup. exists 11%nat. reflexivity.
  - reflexivity.
  - intros msg reply.
    apply (deliver_without_consumer Scenario.parse Scenario.stringify).
    reflexivity.
  - reflexivity.
  - reflexivity.
Qed.

Lemma channel_not_initialized_witness :
  channel (initial (json := string)) = None ∧
  publishWithResponse Scenario.stringify RabbitMQExchanges.INVENTORY
    "inventory.stock.check" "{productCode:PROD-1,quantity:2}" None
    (Scenario.broker_answers "c-1") initial =
  (initial, Threw (Error "Channel not initialized")).
Proof.
  split; [reflexivity|].
  apply (channel_not_initialized Scenario.stringify initial). reflexivity.
Defined.




(** C10 fails on the code: the deduction fails and the database then
    rejects the update to FAILED.  That rejection leaves the inner [catch];
    the order stays PENDING and [createOrder] throws the database's error,
    not the HTTP 500. *)
Lemma failed_update_leaves_order_pending :
  let r :=
    Scenario.createOrder Scenario.dto Scenario.update_rejected
      Scenario.empty_world in
  stockCheck_reply Scenario.update_rejected = inr Scenario.in_stock ∧
  deduct_reply Scenario.update_rejected = inr Scenario.deduction_failed ∧
  status <$> orders r.1 !! "ORDER-123" = Some PENDING ∧
  r.2 = Throws (PlainError (Error "MongoNetworkError")) ∧
  repo_calls r.1 =
    [RepoCreate "ORDER-123" PENDING; RepoUpdate "ORDER-123" FAILED].
Proof. vm_compute. repeat split. Qed.

Lemma deduction_failure_marks_order_failed_witness :
  stockCheck_reply Scenario.deduction_fails = inr Scenario.in_stock ∧
  Scenario.isNaN (Scenario.times (Some 2) (Some 100)) = false ∧
  status <$>
    orders (Scenario.createOrder Scenario.dto Scenario.deduction_fails
              Scenario.empty_world).1 !! "ORDER-123" = Some FAILED.
Proof.
  split; [reflexivity|]. split; [reflexivity|].
  assert ((∃ err, deduct_reply Scenario.deduction_fails = inl err) ∨
          (∃ deduction,
             deduct_reply Scenario.deduction_fails = inr deduction ∧
             StockCheckResponse.success deduction = false)) as Hdeduct.
  { right. exists Scenario.deduction_failed. split; reflexivity. }
  assert (dto_productCode Scenario.dto ≠ "") as Hcode by discriminate.
  destruct (deduction_failure_marks_order_failed Scenario.times None
              Scenario.isNaN Scenario.show Scenario.dto
              Scenario.deduction_fails Scenario.empty_world Scenario.in_stock
              {[ "PROD-1" := Some 100 ]} (Some 100) eq_refl eq_refl eq_refl
              eq_refl Hcode eq_refl eq_refl eq_refl Hdeduct eq_refl)
    as (_ & H & _).
  exact H.
Defined.

(** * More of the bridge *)

Section BridgeMore.

Context {json : Type}.
Variable JSON_parse : string → option json.
Variable JSON_stringify : json → string.

#[local] Abbreviation run' := (run JSON_parse JSON_stringify).
#[local] Abbreviation step' := (step JSON_parse JSON_stringify).

Lemma channel_step s ev :
  is_Some (channel s) → is_Some (channel (step' s ev)).
Proof.
  intros Hch.
  destruct ev as [ex rk m t env|cid r|cid msg r|err|env|env|env|env|ex rk m thr]; simpl.
  - unfold publishWithResponse, publishWithResponse_catch,
      deleteQueue_swallowed.
    repeat case_match; simpl; done.
  - unfold onTimeout, clearTimeout, deleteQueue_logged.
    repeat case_match; simpl in *; try done.
  - unfold onReply, clearTimeout, deleteQueue_logged.
    repeat case_match; simpl in *; try done.
  - done.
  - by apply channel_kept.
  - destruct (retries s); [done|].
    by apply (reconnect_same env (set_retries n s)).
  - by apply (onModuleInit_same env s).
  - by apply (cleanup_same env s).
  - by apply (publish_same JSON_stringify ex rk m thr s).
Qed.

Lemma channel_run s evs :
  is_Some (channel s) → is_Some (channel (run' s evs)).
Proof.
  revert s. induction evs as [|ev evs IH]; intros s Hch; simpl; [done|].
  apply IH. by apply channel_step.
Qed.

(** X1: once [this.channel] is set nothing unsets it, whatever happens
    afterwards (errors, closes, failed reconnects, [onModuleDestroy]); from
    then on [publishWithResponse] always passes its guard and declares its
    reply queue, also when the channel it holds has been closed. *)
Theorem guard_never_fires_again s evs exchange routingKey message timeout env :
  is_Some (channel s) →
  let s' := run' s evs in
  let r :=
    publishWithResponse JSON_stringify exchange routingKey message timeout
      env s' in
  is_Some (channel s') ∧
  ∃ l, ops r.1 =
       ops s' ++
       OpAssertReplyQueue ("response." +:+ uuidv4 env) true true :: l.
Proof.
  intros Hch s' r. pose proof (channel_run s evs Hch) as [ch Hch'].
  split; [by exists ch|]. subst r s'.
  unfold publishWithResponse, publishWithResponse_catch,
    deleteQueue_swallowed, issue.
  rewrite Hch'.
  destruct (assertQueue_reply env), (consume_reply env), (publish_throws env);
    simpl; rewrite <- ?app_assoc; simpl; by eexists.
Qed.

(** X2: when the connection and the channel are granted but one of the
    declarations of [connect] is refused, start-up fails with that error and
    subscribes to nothing, yet [connection] and [channel] are already set;
    the declarations up to the refused one have been issued. *)
Theorem refused_declaration_leaves_channel_set
    env (s : @State json) c ch k err :
  connect_reply env = inr c → createChannel_reply env = inr ch →
  topology_refused env = Some (k, err) → (k < length topology)%nat →
  let r := onModuleInit env s in
  r.2 = Some err ∧ connection r.1 = Some c ∧ channel r.1 = Some ch ∧
  subscriptions r.1 = subscriptions s ∧
  ops r.1 =
    ops s ++ [OpConnect (broker_url env); OpCreateChannel] ++
    take (S k) topology ∧
  logs r.1 = logs s ++ [LogError "Failed to connect to RabbitMQ" err].
Proof.
  intros Hc Hch Ht Hk. unfold onModuleInit, connect, issue, issue_all.
  rewrite Hc, Hch, Ht. rewrite decide_True by done.
  cbn -[topology take]. by rewrite <- !app_assoc.
Qed.

Lemma connect_comes_up env (s : @State json) :
  comes_up env = true →
  ∃ c ch,
    connect_reply env = inr c ∧ createChannel_reply env = inr ch ∧
    subscribe_reply env = None ∧
    connect env s =
    (set_ops
       (ops s ++ [OpConnect (broker_url env); OpCreateChannel] ++ topology)
       (set_channel (Some ch) (set_connection (Some c) s)), None).
Proof.
  unfold comes_up, connect, issue, issue_all.
  destruct (connect_reply env) as [?|c]; [done|].
  destruct (createChannel_reply env) as [?|ch]; [done|].
  intros [Ht Hs%bool_decide_eq_true]%andb_true_iff.
  exists c, ch. repeat split; try done.
  destruct (topology_refused env) as [[k err]|].
  - apply bool_decide_eq_true in Ht. rewrite decide_False by lia.
    cbn -[topology]. by rewrite <- !app_assoc.
  - cbn -[topology]. by rewrite <- !app_assoc.
Qed.

Lemma connect_fails env (s : @State json) :
  comes_up env = false → subscribe_reply env = None →
  is_Some (connect env s).2.
Proof.
  unfold comes_up, connect. intros H Hs. rewrite Hs in H.
  destruct (connect_reply env) as [?|c]; [by eexists|].
  destruct (createChannel_reply env) as [?|ch]; [by eexists|].
  destruct (topology_refused env) as [[k err]|]; [|done].
  rewrite andb_true_r in H. apply bool_decide_eq_false in H.
  rewrite decide_True by lia. by eexists.
Qed.

(** X3: [onModuleInit] completes exactly when the connection, the channel,
    every declaration and the subscription are granted; it has then issued
    [connect], [createChannel], the whole topology in source order and the
    [consume] on [inventory.updates], in that order. *)
Theorem start_succeeds_iff_broker_comes_up env (s : @State json) :
  let r := onModuleInit env s in
  (r.2 = None ↔ comes_up env = true) ∧
  (r.2 = None →
     ops r.1 =
       ops s ++ [OpConnect (broker_url env); OpCreateChannel] ++ topology ++
       [OpConsume RabbitMQQueues.INVENTORY_UPDATES false] ∧
     subscriptions r.1 =
       subscriptions s ++ [RabbitMQQueues.INVENTORY_UPDATES] ∧
     is_Some (channel r.1)).
Proof.
  intros r. subst r. unfold onModuleInit, setupSubscriptions.
  destruct (comes_up env) eqn:Hup.
  - destruct (connect_comes_up env s Hup) as (c & ch & _ & _ & Hsub & ->).
    unfold subscribe. cbn -[topology]. rewrite Hsub. cbn -[topology].
    repeat split; try done. by rewrite <- !app_assoc.
  - assert ((let (s0, o) := connect env s in
             match o with
             | Some err => (s0, Some err)
             | None =>
                 subscribe RabbitMQQueues.INVENTORY_UPDATES
                   (subscribe_reply env) s0
             end).2 ≠ None) as Hfail.
    { destruct (subscribe_reply env) as [e|] eqn:Hsub.
      - destruct (connect env s) as [s2 [err|]]; simpl; [done|].
        unfold subscribe. by repeat case_match.
      - destruct (connect_fails env s Hup Hsub) as [err Herr].
        destruct (connect env s) as [s2 o]; simpl in *. by subst o. }
    repeat split; done.
Qed.

(** X4: a [reconnect] that fails at any stage arms exactly one retry and a
    successful one arms none; so a due retry that fails leaves the number of
    armed retries unchanged, and one that succeeds lowers it by one. *)
Theorem reconnect_retry_accounting env s :
  retries (reconnect env s) =
    (if comes_up env then retries s else S (retries s)) ∧
  retries (step' s (EvRetry env)) =
    match retries s with
    | O => O
    | S n => if comes_up env then n else S n
    end.
Proof.
  assert (∀ s : @State json,
            retries (reconnect env s) =
            if comes_up env then retries s else S (retries s)) as H.
  { clear s. intros s. unfold reconnect, setupSubscriptions.
    assert (retries (cleanup env s) = retries s) as Hcl.
    { unfold cleanup. repeat case_match; simplify_eq; done. }
    destruct (comes_up env) eqn:Hup.
    - destruct (connect_comes_up env (cleanup env s) Hup)
        as (c & ch & _ & _ & Hsub & ->).
      unfold subscribe. simpl. by rewrite Hsub.
    - destruct (subscribe_reply env) as [e|] eqn:Hsub.
      + assert (retries (connect env (cleanup env s)).1 = retries s) as Hco.
        { rewrite <- Hcl. unfold connect.
          repeat case_match; simplify_eq; done. }
        destruct (connect env (cleanup env s)) as [s2 [err|]]; simpl in *.
        * by rewrite Hco.
        * unfold subscribe.
          repeat case_match; simplify_eq; simpl; by rewrite Hco.
      + pose proof (connect_fails env (cleanup env s) Hup Hsub) as [err Herr].
        assert (retries (connect env (cleanup env s)).1 = retries s) as Hco.
        { rewrite <- Hcl. unfold connect.
          repeat case_match; simplify_eq; done. }
        destruct (connect env (cleanup env s)) as [s2 o]; simpl in *. subst o.
        simpl. by rewrite Hco. }
  split; [apply H|]. simpl. destruct (retries s) as [|n] eqn:Hn; [done|].
  by rewrite H.
Qed.

(** X5: when the broker is back, the ['close'] handler closes the channel
    if the service holds one, then, unless that close failed, the connection
    if it holds one; it then issues [connect], [createChannel], the same
    topology and the subscription as at start-up, replaces [connection] and
    [channel] by the new ones and arms no retry. *)
Theorem reconnect_redeclares_topology env (s : @State json) :
  comes_up env = true →
  let s' := onConnectionClose env s in
  let closes :=
    match channel s with
    | Some _ =>
        OpCloseChannel ::
        match closeChannel_reply env, connection s with
        | None, Some _ => [OpCloseConnection]
        | _, _ => []
        end
    | None =>
        match connection s with
        | Some _ => [OpCloseConnection]
        | None => []
        end
    end in
  ∃ c ch,
    ops s' =
      ops s ++ closes ++ [OpConnect (broker_url env); OpCreateChannel] ++
      topology ++ [OpConsume RabbitMQQueues.INVENTORY_UPDATES false] ∧
    connect_reply env = inr c ∧ connection s' = Some c ∧
    createChannel_reply env = inr ch ∧ channel s' = Some ch ∧
    retries s' = retries s.
Proof.
  intros Hup s' closes. subst s'. unfold onConnectionClose, reconnect.
  set (s0 := logger_warn _ s).
  destruct (connect_comes_up env (cleanup env s0) Hup)
    as (c & ch & Hc & Hch & Hsub & ->).
  unfold setupSubscriptions, subscribe. cbn -[topology]. rewrite Hsub.
  cbn -[topology].
  assert (ops (cleanup env s0) = ops s ++ closes ∧
          retries (cleanup env s0) = retries s) as [-> ->].
  { unfold cleanup, issue, logger_error. subst s0 closes. simpl.
    destruct (channel s); simpl;
      destruct (closeChannel_reply env); simpl;
      destruct (connection s); simpl;
      destruct (closeConnection_reply env); simpl;
      rewrite <- ?app_assoc, ?app_nil_r; done. }
  exists c, ch. repeat split; try done.
  by rewrite <- !app_assoc.
Qed.

(** X6: [cleanup] never clears [connection] or [channel]; and when
    [channel.close()] fails, the error is logged and [connection.close()] is
    not attempted. *)
Theorem cleanup_keeps_fields env (s : @State json) :
  connection (cleanup env s) = connection s ∧
  channel (cleanup env s) = channel s ∧
  (∀ err, is_Some (channel s) → closeChannel_reply env = Some err →
     ops (cleanup env s) = ops s ++ [OpCloseChannel] ∧
     logs (cleanup env s) = logs s ++ [LogError "Error during cleanup" err]).
Proof.
  unfold cleanup, issue, logger_error.
  repeat split; repeat case_match; simplify_eq; simpl; try done.
  all: intros [? ?] ?; simplify_eq.
Qed.

(** X7: a reply with the right correlation id whose body is not JSON makes
    the consumer callback throw before it touches anything: the call stays
    registered and pending, no queue deletion is requested, and the call
    ends with ['Request timeout'] when its timer expires. *)
Theorem malformed_reply_leaves_call_pending evs cid ent queue msg reply :
  well_formed evs →
  let s := run' initial evs in
  responseEmitter s !! cid = Some ent →
  consumers s !! cid = Some queue →
  correlationId msg = Some cid →
  JSON_parse (content msg) = None →
  let s' := step' s (EvDeliver cid (Some msg) reply) in
  same_calls s s' ∧ ops s' = ops s ∧
  uncaught s' = uncaught s ++ [Error "SyntaxError"] ∧
  outcome (Returned cid) s' = Pending ∧
  ∀ r, outcome (Returned cid) (step' s' (EvTimer cid r)) =
       Rejected (Error "Request timeout").
Proof.
  intros Hwf s Hent Hq Hc Hparse s'.
  pose proof (invariant_run JSON_parse JSON_stringify _ Hwf) as Hinv.
  fold s in Hinv.
  destruct (inv_entry _ _ _ Hinv _ _ Hent) as [-> [tm Htm]].
  destruct (inv_timer _ _ _ Hinv cid) as (_ & Hp & _); [by eexists|].
  destruct (inv_channel _ _ _ Hinv cid) as [ch Hch]; [by eexists|].
  assert (s' = set_uncaught (uncaught s ++ [Error "SyntaxError"]) s) as ->.
  { subst s'. simpl. unfold onReply. by rewrite Hq, decide_True, Hparse. }
  repeat split; try done.
  - unfold outcome. simpl. by rewrite Hp.
  - intros r. simpl. rewrite Htm.
    unfold outcome, onTimeout, clearTimeout, deleteQueue_logged. simpl.
    rewrite Hch. destruct r; simpl; by rewrite lookup_alter_eq, Hp.
Qed.

(** X8: a decodable reply with the call's id that finds no registry entry
    (the call was already resolved, timed out or failed) resolves nothing
    but requests the deletion of the reply queue once more. *)
Theorem late_reply_deletes_again s cid queue msg reply v :
  responseEmitter s !! cid = None →
  consumers s !! cid = Some queue →
  is_Some (channel s) →
  correlationId msg = Some cid →
  JSON_parse (content msg) = Some v →
  let s' := step' s (EvDeliver cid (Some msg) reply) in
  ops s' = ops s ++ [OpDeleteQueue queue] ∧
  promises s' = promises s ∧ terminals s' = terminals s ∧
  timers s' = timers s ∧ responseEmitter s' = responseEmitter s.
Proof.
  intros Hre Hq [ch Hch] Hc Hparse. simpl.
  unfold onReply, deleteQueue_logged.
  rewrite Hq, decide_True, Hparse, Hre, Hch by done.
  by destruct reply.
Qed.

(** X9: when [channel.publish] throws, the call is rejected and its entry
    removed, but its timer is not cleared: the promise nobody holds stays
    pending, and when the timer expires the queue deletion is requested a
    second time and the timeout [reject] is applied to that promise. *)
Theorem publish_failure_leaves_timer_armed
    s exchange routingKey message timeout env queue err reply :
  is_Some (channel s) →
  assertQueue_reply env = inr queue →
  publish_throws env = Some err →
  let r :=
    publishWithResponse JSON_stringify exchange routingKey message timeout
      env s in
  let cid := uuidv4 env in
  let s' := step' r.1 (EvTimer cid reply) in
  r.2 = Threw err ∧
  responseEmitter r.1 !! cid = None ∧
  timers r.1 !! cid = Some (Timer (default 30000 timeout) queue) ∧
  promises r.1 !! cid = Some Pending ∧
  deletions (ops r.1) = deletions (ops s) ++ ["response." +:+ cid] ∧
  deletions (ops s') = deletions (ops s) ++ ["response." +:+ cid; queue] ∧
  terminals s' = terminals s ++ [(cid, TimeoutReject)] ∧
  timers s' !! cid = None.
Proof.
  intros [ch Hch] Hq Hthrow r cid s'. subst r cid s'.
  unfold publishWithResponse, publishWithResponse_catch,
    deleteQueue_swallowed, issue.
  rewrite Hch, Hq, Hthrow.
  destruct (consume_reply env); cbn -[deletions];
    rewrite ?lookup_delete_eq, ?lookup_insert_eq;
    unfold onTimeout, clearTimeout, deleteQueue_logged, issue, logger_error;
    cbn -[deletions]; rewrite Hch; destruct reply; cbn -[deletions];
    rewrite ?lookup_delete_eq, !deletions_app; cbn;
    by rewrite ?app_nil_r, <- ?app_assoc.
Qed.

(** X10: after any trace in which [uuidv4] never repeats, every call in
    the registry has an armed timer, a pending promise and a channel; and
    every settled promise has neither entry nor timer and exactly one
    terminal event, the one it was settled by. *)
Theorem registry_coherent evs cid :
  well_formed evs →
  let s := run' initial evs in
  (∀ ent, responseEmitter s !! cid = Some ent →
     cid ∈ call_ids evs ∧ is_Some (timers s !! cid) ∧
     promises s !! cid = Some Pending ∧ is_Some (channel s)) ∧
  (∀ p, promises s !! cid = Some p → p ≠ Pending →
     responseEmitter s !! cid = None ∧ timers s !! cid = None ∧
     ∃ t, terminal_events cid s = [t] ∧ p = settle t).
Proof.
  intros Hwf s.
  pose proof (invariant_run JSON_parse JSON_stringify _ Hwf) as Hinv.
  fold s in Hinv. split.
  - intros ent Hent.
    destruct (inv_entry _ _ _ Hinv _ _ Hent) as [_ Harmed].
    destruct (inv_timer _ _ _ Hinv _ Harmed) as (? & ? & _).
    pose proof (inv_channel _ _ _ Hinv _ Harmed). done.
  - intros p Hp Hne.
    destruct (inv_promise _ _ _ Hinv _ _ Hp) as [?|(t & Hin & ->)]; [done|].
    destruct (inv_terminal _ _ _ Hinv _ _ Hin) as (_ & ? & ? & ? & _).
    eauto 10.
Qed.

(** X12: [publish] never touches a pending call.  Without a channel it
    throws a [TypeError] and issues nothing; with one it issues exactly one
    publish with neither correlation id nor reply queue; whatever it throws
    is logged under the exchange's name first. *)
Theorem publish_has_no_guard exchange routingKey message throws s :
  let r := publish JSON_stringify exchange routingKey message throws s in
  same_calls s r.1 ∧
  (channel s = None →
     r.2 = Some (Error "TypeError") ∧ ops r.1 = ops s) ∧
  (is_Some (channel s) →
     r.2 = throws ∧
     ops r.1 =
       ops s ++
       [OpPublish exchange routingKey (JSON_stringify message) None None]) ∧
  (∀ err, r.2 = Some err →
     logs r.1 =
       logs s ++
       [LogError ("Failed to publish message to " +:+ exchange) err]) ∧
  (r.2 = None → logs r.1 = logs s).
Proof.
  unfold publish, same_calls.
  destruct (channel s) as [ch|] eqn:Hch, throws as [e|]; simpl;
    repeat split; try done; try (by intros [? ?]); try (by intros ? [= <-]).
Qed.

Lemma onMessage_logs queue callback msg env s :
  is_Some (channel s) →
  let s' := onMessage JSON_parse queue callback (Some msg) env s in
  logs s' =
    logs s ++
    match failure JSON_parse callback (msg, env) with
    | Some err =>
        [LogError ("Error processing message from queue " +:+ queue) err]
    | None => []
    end ∧
  channel s' = channel s.
Proof.
  intros [ch Hch]. unfold onMessage, failure. simpl.
  destruct (JSON_parse (content msg)) as [body|]; simpl.
  - destruct (callback body msg); simpl; rewrite Hch; simpl.
    + by destruct (nack_throws env).
    + destruct (ack_throws env); simpl; rewrite ?Hch; simpl;
        [by destruct (nack_throws env) | by rewrite app_nil_r].
  - rewrite Hch. simpl. by destruct (nack_throws env).
Qed.

(** X13: on a channel the service holds, whatever [ack] and [nack] do, the
    subscriber logs one error per callback that ends in its [catch] block,
    in the order in which the callbacks complete, with the queue's name and
    the reason (the decoding error, what the handler raised, or what [ack]
    threw), and logs nothing for the others. *)
Theorem rejected_messages_are_logged queue callback cs s :
  is_Some (channel s) →
  logs (consumeLoop JSON_parse queue callback cs s) =
    logs s ++
    omap (λ c,
            LogError ("Error processing message from queue " +:+ queue)
              <$> failure JSON_parse callback c) cs ∧
  ∀ c,
    failure JSON_parse callback c = None ↔
    ∃ body, JSON_parse (content c.1) = Some body ∧
      callback body c.1 = None ∧ ack_throws c.2 = None.
Proof.
  intros Hch. split.
  - unfold consumeLoop. revert s Hch.
    induction cs as [|[m env] cs IH]; intros s Hch;
      cbn [foldl fst snd omap list_omap].
    + by rewrite app_nil_r.
    + destruct (onMessage_logs queue callback m env s Hch) as [Hl Hc].
      rewrite IH by (by rewrite Hc). rewrite Hl.
      destruct (failure JSON_parse callback (m, env)); simpl;
        by rewrite <- app_assoc.
  - intros [m env]. unfold failure. simpl.
    destruct (JSON_parse (content m)) as [body|].
    + destruct (callback body m) eqn:Hcb.
      * split; [done|]. intros (? & [= <-] & ? & _). congruence.
      * split; [by exists body|]. by intros (? & [= <-] & _ & ?).
    + split; [done|]. by intros (? & ? & _).
Qed.

Lemma published_app l l' : published (l ++ l') = published l ++ published l'.
Proof. unfold published. by rewrite omap_app. Qed.

Lemma published_topology n : published (take n topology) = [].
Proof. do 7 (destruct n as [|n]; [done|]). done. Qed.

Lemma cleanup_published env (s : @State json) :
  published (ops (cleanup env s)) = published (ops s).
Proof.
  unfold cleanup, issue, logger_error. repeat case_match; simplify_eq; simpl;
    rewrite ?published_app; simpl; by rewrite ?app_nil_r.
Qed.

Lemma connect_published env (s : @State json) :
  published (ops (connect env s).1) = published (ops s).
Proof.
  unfold connect, issue, issue_all, logger_error.
  repeat case_match; simplify_eq; cbn -[topology take published];
    rewrite ?published_app, ?published_topology; cbn; by rewrite ?app_nil_r.
Qed.

Lemma subscribe_published q r (s : @State json) :
  published (ops (subscribe q r s).1) = published (ops s).
Proof.
  unfold subscribe, issue, logger_error. repeat case_match; simplify_eq; simpl;
    rewrite ?published_app; simpl; by rewrite ?app_nil_r.
Qed.

Lemma reconnect_published env (s : @State json) :
  published (ops (reconnect env s)) = published (ops s).
Proof.
  unfold reconnect, setupSubscriptions.
  pose proof (connect_published env (cleanup env s)) as H2.
  destruct (connect env (cleanup env s)) as [s2 [err|]]; simpl in *.
  - by rewrite H2, cleanup_published.
  - pose proof (subscribe_published RabbitMQQueues.INVENTORY_UPDATES
                  (subscribe_reply env) s2) as H3.
    destruct (subscribe _ _ s2) as [s3 [err|]]; simpl in *;
      by rewrite H3, H2, cleanup_published.
Qed.

Lemma published_step s ev :
  ∃ ids, ids `sublist_of` call_ids [ev] ∧
    published (ops (step' s ev)) = published (ops s) ++ (request_of <$> ids).
Proof.
  destruct ev as [ex rk m t env|cid r|cid msg r|err|env|env|env|env|ex rk m thr];
    cbn [call_ids omap list_omap step].
  - unfold publishWithResponse, publishWithResponse_catch,
      deleteQueue_swallowed, issue.
    destruct (channel s);
      [|exists []; split; [apply sublist_nil_l|by rewrite app_nil_r]].
    destruct (assertQueue_reply env) as [err|queue].
    { exists []. split; [apply sublist_nil_l|]. cbn -[published].
      rewrite !published_app. cbn. by rewrite !app_nil_r. }
    exists [uuidv4 env]. split; [done|].
    destruct (consume_reply env), (publish_throws env); cbn -[published];
      rewrite !published_app; cbn; by rewrite ?app_nil_r.
  - exists []. split; [done|]. rewrite app_nil_r.
    unfold onTimeout, clearTimeout, deleteQueue_logged, reject, issue,
      logger_error.
    repeat case_match; cbn -[published]; rewrite ?published_app; cbn;
      by rewrite ?app_nil_r.
  - exists []. split; [done|]. rewrite app_nil_r.
    unfold onReply, clearTimeout, deleteQueue_logged, resolve, issue,
      logger_error.
    repeat case_match; cbn -[published]; rewrite ?published_app; cbn;
      by rewrite ?app_nil_r.
  - exists []. split; [done|]. by rewrite app_nil_r.
  - exists []. split; [done|]. rewrite app_nil_r.
    unfold onConnectionClose. by rewrite reconnect_published.
  - exists []. split; [done|]. rewrite app_nil_r.
    destruct (retries s); [done|]. by rewrite reconnect_published.
  - exists []. split; [done|]. rewrite app_nil_r.
    unfold onModuleInit.
    pose proof (connect_published env s) as H2.
    destruct (connect env s) as [s2 [err|]]; simpl in *; [done|].
    unfold setupSubscriptions. by rewrite subscribe_published.
  - exists []. split; [done|]. rewrite app_nil_r.
    unfold onModuleDestroy. by rewrite cleanup_published.
  - exists []. split; [done|]. rewrite app_nil_r.
    unfold publish, issue, logger_error.
    repeat case_match; cbn -[published]; rewrite ?published_app; cbn;
      by rewrite ?app_nil_r.
Qed.

Lemma published_run evs :
  ∃ ids, ids `sublist_of` call_ids evs ∧
    published (ops (run' initial evs)) = request_of <$> ids.
Proof.
  induction evs as [|ev evs (ids & Hsub & IH)] using rev_ind.
  - by exists [].
  - rewrite run_snoc.
    destruct (published_step (run' initial evs) ev) as (new & Hnew & ->).
    exists (ids ++ new). split.
    + unfold call_ids in *. rewrite omap_app. by apply sublist_app.
    + by rewrite IH, fmap_app.
Qed.

(** X11: after any trace in which [uuidv4] never repeats (invocations of
    [publish] included, whose messages carry no correlation id), every
    message published with a correlation id carries the id [c] of one call
    of the trace and the reply queue [response.c], in the order of the
    calls, and no id is published twice. *)
Theorem requests_name_their_reply_queue evs :
  well_formed evs →
  let s := run' initial evs in
  NoDup (published (ops s)) ∧
  ∃ ids, ids `sublist_of` call_ids evs ∧
    published (ops s) = request_of <$> ids.
Proof.
  intros Hwf s. destruct (published_run evs) as (ids & Hsub & Heq).
  split; [|by exists ids]. subst s. rewrite Heq.
  apply NoDup_fmap_2.
  - intros c c' [= ->]. done.
  - by eapply sublist_NoDup.
Qed.

End BridgeMore.

(** * More of the order workflow *)

Section OrdersMore.

Context {number : Type}.
Variable times : number → number → number.
Variable NaN : number.
Variable isNaN : number → bool.
Variable show : number → string.

#[local] Abbreviation createOrder' :=
  (OrderService.createOrder times NaN isNaN show).

(** X14: when the stock check succeeds with a price for the product, the
    order passes the schema (a product code that is not empty, numbers that
    are not [NaN]), and the database, the deduction and the update
    all succeed, [createOrder] returns the order CONFIRMED with total price
    quantity times price, [getOrder] on its id returns the same order, the
    repository saw the creation as PENDING followed by the update to
    CONFIRMED, and the one event logged carries the id and the total price
    as the template literal prints it. *)
Theorem createOrder_confirms dto env w check stock price deduction :
  stockCheck_reply env = inr check →
  StockCheckResponse.success check = true →
  StockCheckResponse.availableStock check = Some stock →
  stock !! dto_productCode dto = Some price →
  dto_productCode dto ≠ "" →
  isNaN (times (dto_quantity dto) price) = false →
  isNaN (dto_quantity dto) = false →
  save_reply env = None →
  deduct_reply env = inr deduction →
  StockCheckResponse.success deduction = true →
  confirm_reply env = None →
  let r := createOrder' dto env w in
  let order :=
    MkOrder (dto_productCode dto) (dto_quantity dto)
      (times (dto_quantity dto) price) CONFIRMED in
  r.2 = Returns (Some order) ∧
  OrderService.getOrder (new_id env) None r.1 = (r.1, Returns (Some order)) ∧
  repo_calls r.1 =
    repo_calls w ++
    [RepoCreate (new_id env) PENDING; RepoUpdate (new_id env) CONFIRMED] ∧
  requests r.1 =
    requests w ++ ["inventory.stock.check"; "inventory.stock.deduct"] ∧
  order_logs r.1 =
    order_logs w ++
    [("Order confirmed",
      Text ("Order " +:+ new_id env +:+
            " confirmed successfully with total price " +:+
            show (times (dto_quantity dto) price)))].
Proof.
  intros Hcheck Hok Hstock Hprice Hcode Hp Hq Hsave Hdeduct Hok' Hconfirm.
  unfold OrderService.createOrder, OrderService.getOrder,
    OrderRepository.findOrderById.
  rewrite Hcheck, Hok, Hstock, Hprice. cbn [negb].
  rewrite (createOrder_stores times isNaN dto env w check stock price)
    by done.
  unfold OrderRepository.updateOrderStatus.
  rewrite Hdeduct, Hok', Hconfirm. simpl.
  rewrite lookup_insert_eq. simpl. rewrite lookup_insert_eq.
  by rewrite <- !app_assoc.
Qed.

(** X15: unless the stock check answers [success] with an
    [availableStock], [createOrder] throws, stores no order, calls the
    repository not at all and sends no deduction request. *)
Theorem createOrder_without_stock_creates_nothing dto env w :
  (∀ check, stockCheck_reply env = inr check →
     StockCheckResponse.success check = false ∨
     StockCheckResponse.availableStock check = None) →
  let r := createOrder' dto env w in
  (∃ e, r.2 = Throws e) ∧
  orders r.1 = orders w ∧ repo_calls r.1 = repo_calls w ∧
  requests r.1 = requests w ++ ["inventory.stock.check"].
Proof.
  intros H. unfold OrderService.createOrder.
  destruct (stockCheck_reply env) as [err|check]; simpl; [by eauto|].
  destruct (H check eq_refl) as [->| Hnone]; simpl; [by eauto|].
  destruct (StockCheckResponse.success check); simpl; [|by eauto].
  rewrite Hnone. simpl. by eauto.
Qed.

(** X16: a stock check answering [success = false] becomes an HTTP 400
    carrying the response's message, or ['Insufficient stock available']
    when that is absent or empty, so never an empty text; the refusal is
    logged with the response's message as it is ([undefined] when absent),
    then the failure with the stack of that HTTP exception. *)
Theorem createOrder_stock_refused dto env w check :
  stockCheck_reply env = inr check →
  StockCheckResponse.success check = false →
  let r := createOrder' dto env w in
  let text :=
    or_else (StockCheckResponse.message check) "Insufficient stock available" in
  r.2 = Throws (HttpException text HttpStatus.BAD_REQUEST) ∧
  text ≠ "" ∧
  order_logs r.1 =
    order_logs w ++
    [("Stock check failed",
      OrderService.message_data (StockCheckResponse.message check));
     ("Order creation failed",
      StackOf (HttpException text HttpStatus.BAD_REQUEST))].
Proof.
  intros Hcheck Hko. unfold OrderService.createOrder.
  rewrite Hcheck, Hko. simpl. repeat split.
  - unfold or_else.
    destruct (StockCheckResponse.message check) as [m|]; [|done].
    by destruct (decide (m = "")).
  - by rewrite <- app_assoc.
Qed.

(** X17: when the stock-check call itself fails (a timeout, a publish
    failure), [createOrder] rethrows that very error, not an HTTP
    exception, after logging it. *)
Theorem createOrder_rethrows_bridge_failure dto env w err :
  stockCheck_reply env = inl err →
  let r := createOrder' dto env w in
  r.2 = Throws (PlainError err) ∧
  order_logs r.1 =
    order_logs w ++ [("Order creation failed", StackOf (PlainError err))].
Proof. intros H. unfold OrderService.createOrder. by rewrite H. Qed.

(** X18: whatever [createOrder] throws, on any path (the rejections of the
    repository included), the last event it logged is ['Order creation
    failed'] with the stack of that very error. *)
Theorem createOrder_logs_every_failure dto env w e :
  (createOrder' dto env w).2 = Throws e →
  ∃ l, order_logs (createOrder' dto env w).1 =
       order_logs w ++ l ++ [("Order creation failed", StackOf e)].
Proof.
  unfold OrderService.createOrder, OrderRepository.updateOrderStatus,
    OrderRepository.createOrder.
  repeat case_match; simplify_eq; simpl; intros [= <-];
    rewrite <- ?app_assoc; simpl.
  all: try (by exists []).
  all: try (by eexists [_]).
  all: try (by eexists [_; _]).
Qed.

(** X19: [createOrder] leaves every other order as it was.  What it
    returns is the stored order, CONFIRMED, with the product and quantity
    asked for.  When it throws, either nothing was stored, or the stored
    order is FAILED and the error is the HTTP 500, or the database rejected
    the update to FAILED: then the order stays PENDING and the error thrown
    is the database's. *)
Theorem createOrder_touches_only_its_order dto env w :
  let r := createOrder' dto env w in
  (∀ id, id ≠ new_id env → orders r.1 !! id = orders w !! id) ∧
  (∀ x, r.2 = Returns x →
     ∃ o, x = Some o ∧ orders r.1 !! new_id env = Some o ∧
       productCode o = dto_productCode dto ∧
       quantity o = dto_quantity dto ∧ status o = CONFIRMED) ∧
  (∀ e, r.2 = Throws e →
     orders r.1 = orders w ∨
     ∃ o, orders r.1 !! new_id env = Some o ∧
       productCode o = dto_productCode dto ∧
       quantity o = dto_quantity dto ∧
       ((status o = FAILED ∧ fail_reply env = None ∧
         e = HttpException "Failed to process order"
               HttpStatus.INTERNAL_SERVER_ERROR) ∨
        (status o = PENDING ∧
         ∃ err, fail_reply env = Some err ∧ e = PlainError err))).
Proof.
  unfold OrderService.createOrder, OrderRepository.updateOrderStatus,
    OrderRepository.createOrder.
  split; [|split].
  - intros id Hne. repeat case_match; simplify_eq; simpl;
      by rewrite ?lookup_insert_ne.
  - intros x Hx. repeat case_match; simplify_eq; simpl in *;
      rewrite ?lookup_insert_eq in *; simplify_eq; simpl; eauto 10.
  - intros e He. repeat case_match; simplify_eq; simpl in *;
      rewrite ?lookup_insert_eq in *; simplify_eq; simpl; auto.
    all: right; eexists; (split; [by rewrite ?lookup_insert_eq|]); simpl;
      eauto 10.
Qed.

End OrdersMore.

(** X21: [getOrder] never writes: it returns the stored order; for an
    unknown id it logs ['Failed to fetch order'] with the stack of the HTTP
    404 ['Order not found'] and throws it; when the lookup is rejected it
    logs the stack of that error and throws it again. *)
Theorem getOrder_reads_only {number} id reply (w : World number) :
  let r := OrderService.getOrder id reply w in
  orders r.1 = orders w ∧ repo_calls r.1 = repo_calls w ∧
  (∀ o, reply = None → orders w !! id = Some o →
     r = (w, Returns (Some o))) ∧
  (reply = None → orders w !! id = None →
     r.2 = Throws (HttpException "Order not found" HttpStatus.NOT_FOUND) ∧
     order_logs r.1 =
       order_logs w ++
       [("Failed to fetch order",
         StackOf (HttpException "Order not found" HttpStatus.NOT_FOUND))]) ∧
  (∀ err, reply = Some err →
     r.2 = Throws (PlainError err) ∧
     order_logs r.1 =
       order_logs w ++ [("Failed to fetch order", StackOf (PlainError err))]).
Proof.
  unfold OrderService.getOrder, OrderRepository.findOrderById.
  destruct reply as [err|]; [|destruct (orders w !! id) as [o|]]; simpl;
    repeat split; intros; by simplify_eq.
Qed.

(** * More scenarios, run *)

Lemma guard_never_fires_again_witness :
  is_Some (channel (Scenario.run [EvInit Scenario.broker_up])) ∧
  is_Some
    (channel
       (run Scenario.parse Scenario.stringify
          (Scenario.run [EvInit Scenario.broker_up])
          [EvDestroy Scenario.broker_up])).
Proof.
  assert (is_Some (channel (Scenario.run [EvInit Scenario.broker_up]))) as Hch.
  { exists 1%nat. reflexivity. }
  split; [exact Hch|].
  destruct (guard_never_fires_again Scenario.parse Scenario.stringify
              (Scenario.run [EvInit Scenario.broker_up])
              [EvDestroy Scenario.broker_up]
              RabbitMQExchanges.INVENTORY "inventory.stock.check"
              "{productCode:PROD-1,quantity:2}" None
              (Scenario.broker_answers "c-1") Hch) as [H _].
  exact H.
Defined.

Lemma refused_declaration_leaves_channel_set_witness :
  (5 < length topology)%nat ∧
  channel (onModuleInit Scenario.binding_refused (initial (json := string))).1
    = Some 1%nat.
Proof.
  assert (5 < length topology)%nat as Hk by (simpl; lia).
  split; [exact Hk|].
  destruct (refused_declaration_leaves_channel_set Scenario.binding_refused
              (initial (json := string)) 1%nat 1%nat 5%nat (Error "NOT_FOUND")
              eq_refl eq_refl eq_refl Hk) as (_ & _ & H & _).
  exact H.
Defined.

Lemma reconnect_redeclares_topology_witness :
  comes_up Scenario.broker_up = true ∧
  ∃ ch,
    channel (onConnectionClose Scenario.broker_up
               (Scenario.run Scenario.outstanding)) = Some ch.
Proof.
  split; [reflexivity|].
  destruct (reconnect_redeclares_topology Scenario.broker_up
              (Scenario.run Scenario.outstanding) eq_refl)
    as (c & ch & _ & _ & _ & _ & H & _).
  exists ch. exact H.
Defined.

Lemma malformed_reply_leaves_call_pending_witness :
  well_formed Scenario.outstanding ∧
  Scenario.parse (content (Scenario.garbled "c-1")) = None ∧
  outcome (Returned "c-1")
    (Scenario.step (Scenario.run Scenario.outstanding)
       (EvDeliver "c-1" (Some (Scenario.garbled "c-1")) None)) = Pending.
Proof.
  assert (well_formed Scenario.outstanding) as Hwf.
  { apply (bool_decide_unpack _). vm_compute. exact I. }
  assert (responseEmitter (Scenario.run Scenario.outstanding) !! "c-1" =
          Some (Entry "c-1" "c-1" "c-1")) as Hent by reflexivity.
  assert (consumers (Scenario.run Scenario.outstanding) !! "c-1" =
          Some "response.c-1") as Hq by reflexivity.
  split; [exact Hwf|]. split; [reflexivity|].
  destruct (malformed_reply_leaves_call_pending Scenario.parse
              Scenario.stringify Scenario.outstanding "c-1"
              (Entry "c-1" "c-1" "c-1") "response.c-1"
              (Scenario.garbled "c-1") None Hwf Hent Hq eq_refl eq_refl)
    as (_ & _ & _ & H & _).
  exact H.
Defined.

Lemma late_reply_deletes_again_witness :
  responseEmitter
    (Scenario.run (Scenario.outstanding ++ [EvTimer "c-1" None])) !! "c-1" =
    None ∧
  ops (Scenario.step
         (Scenario.run (Scenario.outstanding ++ [EvTimer "c-1" None]))
         (EvDeliver "c-1" (Some (Scenario.reply "c-1")) None)) =
  ops (Scenario.run (Scenario.outstanding ++ [EvTimer "c-1" None])) ++
  [OpDeleteQueue "response.c-1"].
Proof.
  assert (responseEmitter
            (Scenario.run (Scenario.outstanding ++ [EvTimer "c-1" None]))
            !! "c-1" = None) as Hre by reflexivity.
  assert (consumers
            (Scenario.run (Scenario.outstanding ++ [EvTimer "c-1" None]))
            !! "c-1" = Some "response.c-1") as Hq by reflexivity.
  assert (is_Some
            (channel
               (Scenario.run (Scenario.outstanding ++ [EvTimer "c-1" None]))))
    as Hch.
  { exists 1%nat. reflexivity. }
  split; [exact Hre|].
  destruct (late_reply_deletes_again Scenario.parse Scenario.stringify
              (Scenario.run (Scenario.outstanding ++ [EvTimer "c-1" None]))
              "c-1" "response.c-1" (Scenario.reply "c-1") None
              "{success:true,availableStock:{PROD-1:100}}"
              Hre Hq Hch eq_refl eq_refl) as [H _].
  exact H.
Defined.

Lemma publish_failure_leaves_timer_armed_witness :
  publish_throws (Scenario.publish_fails "c-1") =
    Some (Error "Channel closed") ∧
  timers
    (publishWithResponse Scenario.stringify RabbitMQExchanges.INVENTORY
       "inventory.stock.check" "{productCode:PROD-1,quantity:2}" None
       (Scenario.publish_fails "c-1")
       (Scenario.run [EvInit Scenario.broker_up])).1 !! "c-1" =
  Some (Timer 30000 "response.c-1").
Proof.
  assert (is_Some (channel (Scenario.run [EvInit Scenario.broker_up]))) as Hch.
  { exists 1%nat. reflexivity. }
  split; [reflexivity|].
  destruct (publish_failure_leaves_timer_armed Scenario.parse
              Scenario.stringify
              (Scenario.run [EvInit Scenario.broker_up])
              RabbitMQExchanges.INVENTORY "inventory.stock.check"
              "{productCode:PROD-1,quantity:2}" None
              (Scenario.publish_fails "c-1") "response.c-1"
              (Error "Channel closed") None Hch eq_refl eq_refl)
    as (_ & _ & H & _).
  exact H.
Defined.

Lemma registry_coherent_witness :
  well_formed Scenario.outstanding ∧
  is_Some (timers (Scenario.run Scenario.outstanding) !! "c-1").
Proof.
  assert (well_formed Scenario.outstanding) as Hwf.
  { apply (bool_decide_unpack _). vm_compute. exact I. }
  assert (responseEmitter (Scenario.run Scenario.outstanding) !! "c-1" =
          Some (Entry "c-1" "c-1" "c-1")) as Hent by reflexivity.
  split; [exact Hwf|].
  destruct (registry_coherent Scenario.parse Scenario.stringify
              Scenario.outstanding "c-1" Hwf) as [H _].
  destruct (H (Entry "c-1" "c-1" "c-1") Hent) as (_ & Harmed & _).
  exact Harmed.
Defined.

Lemma requests_name_their_reply_queue_witness :
  well_formed Scenario.outstanding ∧
  NoDup (published (ops (Scenario.run Scenario.outstanding))).
Proof.
  assert (well_formed Scenario.outstanding) as Hwf.
  { apply (bool_decide_unpack _). vm_compute. exact I. }
  split; [exact Hwf|].
  destruct (requests_name_their_reply_queue Scenario.parse Scenario.stringify
              Scenario.outstanding Hwf) as [H _].
  exact H.
Defined.

Lemma rejected_messages_are_logged_witness :
  is_Some (channel (Scenario.run [EvInit Scenario.broker_up])) ∧
  logs (consumeLoop Scenario.parse RabbitMQQueues.INVENTORY_UPDATES
          Scenario.handler
          [(Scenario.garbled "c-1", Scenario.channel_live);
           (Scenario.reply "c-1", Scenario.channel_closed)]
          (Scenario.run [EvInit Scenario.broker_up])) =
  logs (Scenario.run [EvInit Scenario.broker_up]) ++
  [LogError
     ("Error processing message from queue " +:+
      RabbitMQQueues.INVENTORY_UPDATES) (Error "SyntaxError");
   LogError
     ("Error processing message from queue " +:+
      RabbitMQQueues.INVENTORY_UPDATES) (Error "Channel closed")].
Proof.
  assert (is_Some (channel (Scenario.run [EvInit Scenario.broker_up])))
    as Hch.
  { exists 1%nat. reflexivity. }
  split; [exact Hch|].
  destruct (rejected_messages_are_logged Scenario.parse
              RabbitMQQueues.INVENTORY_UPDATES Scenario.handler
              [(Scenario.garbled "c-1", Scenario.channel_live);
               (Scenario.reply "c-1", Scenario.channel_closed)]
              (Scenario.run [EvInit Scenario.broker_up]) Hch) as [H _].
  exact H.
Defined.

Lemma createOrder_confirms_witness :
  deduct_reply Scenario.deduction_succeeds = inr Scenario.deducted ∧
  Scenario.isNaN (Scenario.times (Some 2) (Some 100)) = false ∧
  (Scenario.createOrder Scenario.dto Scenario.deduction_succeeds
     Scenario.empty_world).2 =
  Returns (Some (MkOrder "PROD-1" (Some 2) (Some 200) CONFIRMED)).
Proof.
  split; [reflexivity|]. split; [reflexivity|].
  assert (dto_productCode Scenario.dto ≠ "") as Hcode by discriminate.
  destruct (createOrder_confirms Scenario.times None Scenario.isNaN
              Scenario.show Scenario.dto Scenario.deduction_succeeds
              Scenario.empty_world Scenario.in_stock
              {[ "PROD-1" := Some 100 ]} (Some 100) Scenario.deducted
              eq_refl eq_refl eq_refl eq_refl Hcode eq_refl eq_refl eq_refl
              eq_refl eq_refl eq_refl) as [H _].
  exact H.
Defined.

Lemma createOrder_without_stock_creates_nothing_witness :
  stockCheck_reply Scenario.stock_refused = inr Scenario.out_of_stock ∧
  orders (Scenario.createOrder Scenario.dto Scenario.stock_refused
            Scenario.empty_world).1 = orders Scenario.empty_world.
Proof.
  split; [reflexivity|].
  assert (∀ check,
            stockCheck_reply Scenario.stock_refused = inr check →
            StockCheckResponse.success check = false ∨
            StockCheckResponse.availableStock check = None) as H.
  { intros check [= <-]. left. reflexivity. }
  destruct (createOrder_without_stock_creates_nothing Scenario.times None
              Scenario.isNaN Scenario.show Scenario.dto
              Scenario.stock_refused Scenario.empty_world H) as (_ & Ho & _).
  exact Ho.
Defined.

Lemma createOrder_stock_refused_witness :
  StockCheckResponse.success Scenario.out_of_stock = false ∧
  (Scenario.createOrder Scenario.dto Scenario.stock_refused
     Scenario.empty_world).2 =
  Throws (HttpException "Insufficient stock" HttpStatus.BAD_REQUEST).
Proof.
  split; [reflexivity|].
  destruct (createOrder_stock_refused Scenario.times None Scenario.isNaN
              Scenario.show Scenario.dto Scenario.stock_refused
              Scenario.empty_world Scenario.out_of_stock eq_refl eq_refl)
    as [H _].
  exact H.
Defined.

Lemma createOrder_rethrows_bridge_failure_witness :
  stockCheck_reply Scenario.bridge_times_out =
    inl (Error "Request timeout") ∧
  (Scenario.createOrder Scenario.dto Scenario.bridge_times_out
     Scenario.empty_world).2 =
  Throws (PlainError (Error "Request timeout")).
Proof.
  split; [reflexivity|].
  destruct (createOrder_rethrows_bridge_failure Scenario.times None
              Scenario.isNaN Scenario.show Scenario.dto
              Scenario.bridge_times_out Scenario.empty_world
              (Error "Request timeout") eq_refl) as [H _].
  exact H.
Defined.

Lemma createOrder_logs_every_failure_witness :
  (Scenario.createOrder Scenario.dto Scenario.update_rejected
     Scenario.empty_world).2 =
    Throws (PlainError (Error "MongoNetworkError")) ∧
  ∃ l,
    order_logs
      (Scenario.createOrder Scenario.dto Scenario.update_rejected
         Scenario.empty_world).1 =
    order_logs Scenario.empty_world ++ l ++
    [("Order creation failed",
      StackOf (PlainError (Error "MongoNetworkError")))].
Proof.
  split; [reflexivity|].
  exact (createOrder_logs_every_failure Scenario.times None Scenario.isNaN
           Scenario.show Scenario.dto Scenario.update_rejected
           Scenario.empty_world (PlainError (Error "MongoNetworkError"))
           eq_refl).
Defined.
